(** * epDelegate.h: the C#-style delegate of EpLibrary, embedded in Rocq

    The header declares [Delegate<RetType,ArgType>], its partial
    specialisation [Delegate<RetType,void>], and two free [operator+].
    A delegate owns a [vector] of function pointers ([m_funcList]), a lock
    and the policy the lock was created from.

    Embedding.
    - Delegate objects live in a store indexed by addresses, so that
      references ([this], [const Delegate &right]) may alias and so that
      "does not mutate" is a statement about the store.
    - [vector] is a list; an iterator is a position in it, or
      [Invalidated] once an [erase] at or before its slot has happened
      (C++ [vector.modifiers]: erase invalidates iterators at or after the
      point of the erase).
    - Every member function returns an [outcome]: a value, or the
      [fault] at which the execution stops being defined.
    - Loops carry a budget that the calling operation computes from the
      vector sizes; no operation ends with [loop_budget]
      ([structural_operators_within_budget], [invocations_within_budget]).
    - Targets are opaque: a call takes the argument and a state of the
      world to a result and the next state of the world.
    - An expression [a + b] of client code reaches a declared [operator+]
      only as C++ resolves it: with an operand of class type
      ([plus_expression]).
    - Constness of iterators and locking are not part of the sequential
      behaviour and are not modelled beyond the fields they initialise. *)

From stdpp Require Import base gmap list.

(** ** Outcomes *)

Inductive fault : Set :=
  | out_of_range       (* EP_VERIFY_OUT_OF_RANGE saw a false condition *)
  | past_the_end       (* an iterator at or beyond end() was dereferenced or advanced *)
  | invalid_iterator   (* an iterator invalidated by erase was used *)
  | not_a_target       (* push_back received an iterator, not a function pointer *)
  | missing_return     (* control left a value-returning function without return *)
  | dangling           (* a reference to an object that is not in the store *)
  | no_user_operator   (* an operator expression none of whose operands is of class type *)
  | loop_budget.       (* the loop budget of the embedding ran out *)

Inductive outcome (X : Type) : Type :=
  | Ok (x : X)
  | Fault (e : fault).
Arguments Ok {X} x.
Arguments Fault {X} e.

#[global] Instance outcome_ret : MRet outcome := @Ok.
#[global] Instance outcome_bind : MBind outcome := fun X Y k m =>
  match m with
  | Ok x => k x
  | Fault e => Fault e
  end.

(** ** Lock policy and lock objects *)

(** Modelled from the spec: the [LockPolicy] enumeration is declared in a
    header that is not under src/.  The constructors' [switch] names three
    policies (critical section, mutex, no lock); every other value reaches
    [default:] and leaves the delegate without a lock. *)
Inductive LockPolicy : Set :=
  | LOCK_POLICY_CRITICALSECTION
  | LOCK_POLICY_MUTEX
  | LOCK_POLICY_NONE
  | LOCK_POLICY_unlisted.

Inductive BaseLock : Set :=
  | CriticalSectionEx
  | Mutex
  | NoLock.

(** The [switch] shared by the three constructors; [None] is [NULL]. *)
Definition new_lock (lockPolicyType : LockPolicy) : option BaseLock :=
  match lockPolicyType with
  | LOCK_POLICY_CRITICALSECTION => Some CriticalSectionEx
  | LOCK_POLICY_MUTEX => Some Mutex
  | LOCK_POLICY_NONE => Some NoLock
  | LOCK_POLICY_unlisted => None
  end.

(** ** std::vector and its iterators *)

Inductive iterator : Set :=
  | At (pos : nat)     (* designates slot [pos]; [pos = size] is end() *)
  | Invalidated.

#[global] Instance iterator_eq_dec : EqDecision iterator.
Proof. solve_decision. Defined.

Section vector.
Context {T : Type}.

Definition v_begin (v : list T) : iterator := At 0.
Definition v_end (v : list T) : iterator := At (length v).

(** [i != j] *)
Definition iter_ne (i j : iterator) : outcome bool :=
  match i, j with
  | At p, At q => Ok (negb (p =? q))
  | _, _ => Fault invalid_iterator
  end.

(** [i == j] *)
Definition iter_eq (i j : iterator) : outcome bool :=
  match i, j with
  | At p, At q => Ok (p =? q)
  | _, _ => Fault invalid_iterator
  end.

(** [*i] *)
Definition iter_deref (v : list T) (i : iterator) : outcome T :=
  match i with
  | At p => match v !! p with
            | Some x => Ok x
            | None => Fault past_the_end
            end
  | Invalidated => Fault invalid_iterator
  end.

(** [i += n]; [i++] is [i += 1] *)
Definition iter_advance (v : list T) (i : iterator) (n : nat) : outcome iterator :=
  match i with
  | At p => if decide (p + n ≤ length v) then Ok (At (p + n))
            else Fault past_the_end
  | Invalidated => Fault invalid_iterator
  end.

Definition iter_incr (v : list T) (i : iterator) : outcome iterator :=
  iter_advance v i 1.

(** [v.erase(i)]: the vector without slot [i], and the iterator that
    [erase] returns (the element that followed the erased one). *)
Definition erase (v : list T) (i : iterator) : outcome (list T * iterator) :=
  match i with
  | At p => if decide (p < length v) then Ok (delete p v, At p)
            else Fault past_the_end
  | Invalidated => Fault invalid_iterator
  end.

(** What an iterator [i] of the same vector is worth after
    [erase(erased)]: iterators before the erased slot survive, the
    others (the erased one included) are invalidated. *)
Definition after_erase (erased i : iterator) : iterator :=
  match erased, i with
  | At p, At q => if decide (q < p) then At q else Invalidated
  | _, _ => Invalidated
  end.

(** [v.push_back(x)] *)
Definition push_back (v : list T) (x : T) : list T := v ++ [x].

(** [v.push_back(i)] with an iterator [i] as the argument: [push_back]
    takes a [T], an iterator is not one and converts to none, so no
    element is stored. *)
Definition push_back_iterator (v : list T) (i : iterator) : outcome (list T) :=
  Fault not_a_target.
End vector.

(** ** Leaving a function by its closing brace

    The template parameter [RetType] may be [void].  A function that
    returns [void] may end without a [return]; for any other [RetType]
    doing so is undefined.  [void_type u] says that [RetType] is [void],
    [u] standing for the absent result. *)
Inductive return_type (R : Type) : Type :=
  | value_type
  | void_type (u : R).
Arguments value_type {R}.
Arguments void_type {R} u.

Definition end_of_function {R : Type} (RetType : return_type R) : outcome R :=
  match RetType with
  | value_type => Fault missing_return
  | void_type u => Ok u
  end.

(** Modelled from the spec: the macro [EP_VERIFY_OUT_OF_RANGE] is defined in
    a header that is not under src/.  The spec has [Index(i)] with
    [i ≥ count] "surfaced to the caller as a range-violation failure; no
    partial result": a false condition ends the call with [out_of_range],
    a true one lets it go on. *)
Definition EP_VERIFY_OUT_OF_RANGE (cond : bool) : outcome unit :=
  if cond then Ok tt else Fault out_of_range.

(** ** The delegate and the store *)

Section Model.
Context {F : Type} `{!EqDecision F}.
(** [F] is the type of the function pointers ([FuncType] of either
    class); [==] on them is decidable equality. *)

(** The compile-time default of the constructors' policy parameter. *)
Variable EP_LOCK_POLICY : LockPolicy.

Record Delegate : Type := mkDelegate {
  m_funcList : list F;
  m_lock : option BaseLock;
  m_lockPolicy : LockPolicy
}.

Definition M (X : Type) : Type :=
  gmap nat Delegate → outcome (X * gmap nat Delegate).

#[global] Instance M_ret : MRet M := fun X x h => Ok (x, h).
#[global] Instance M_bind : MBind M := fun X Y k m h =>
  match m h with
  | Ok (x, h') => k x h'
  | Fault e => Fault e
  end.

Definition lift {X : Type} (o : outcome X) : M X := fun h =>
  match o with
  | Ok x => Ok (x, h)
  | Fault e => Fault e
  end.

Definition load (a : nat) : M Delegate := fun h =>
  match h !! a with
  | Some d => Ok (d, h)
  | None => Fault dangling
  end.

(** read [a->m_funcList] *)
Definition funcList (a : nat) : M (list F) :=
  d ← load a; mret (m_funcList d).

(** write [a->m_funcList] *)
Definition set_funcList (a : nat) (v : list F) : M unit := fun h =>
  match h !! a with
  | Some d => Ok (tt, <[a := mkDelegate v (m_lock d) (m_lockPolicy d)]> h)
  | None => Fault dangling
  end.

(** a local object enters scope *)
Definition alloc (d : Delegate) : M nat := fun h =>
  let a := fresh (dom h) in Ok (a, <[a := d]> h).

(** a local object leaves scope ([~Delegate] releases its lock) *)
Definition free (a : nat) : M unit := fun h => Ok (tt, delete a h).

(** Modelled from the spec: [LockObj] is declared in a header that is not
    under src/.  [LockObj lock(m_lock)] is the "scoped acquisition with
    guaranteed release on every exit path" of the delegate's lock.  One
    thread runs, so acquiring and releasing change nothing in the store;
    for a delegate without a lock the spec leaves open whether the
    mutation "faults or silently skips synchronization", and it is taken
    as skipped. *)
Definition LockObj (a : nat) : M unit :=
  _ ← load a; mret tt.

(** ** Constructors *)

(** [Delegate(LockPolicy lockPolicyType=EP_LOCK_POLICY)] *)
Definition Delegate_empty (lockPolicyType : LockPolicy) : Delegate :=
  mkDelegate [] (new_lock lockPolicyType) lockPolicyType.

(** [Delegate(RetType ( *func)(ArgType), LockPolicy lockPolicyType=EP_LOCK_POLICY)] *)
Definition Delegate_of (func : F) (lockPolicyType : LockPolicy) : Delegate :=
  mkDelegate (push_back [] func) (new_lock lockPolicyType) lockPolicyType.

(** [Delegate(const Delegate &orig)]: the vector is copied, the lock is
    made anew from the copied policy. *)
Definition Delegate_copy (orig : Delegate) : Delegate :=
  mkDelegate (m_funcList orig) (new_lock (m_lockPolicy orig)) (m_lockPolicy orig).

(** [Delegate ret( *this);] as a local of a member function *)
Definition local_copy (orig : nat) : M nat :=
  d ← load orig; alloc (Delegate_copy d).

(** [return ret;]: the caller receives a copy, the local is destroyed *)
Definition return_local (ret : nat) : M Delegate :=
  d ← load ret; _ ← free ret; mret (Delegate_copy d).

(** ** Assignment and append *)

(** [operator=(const Delegate &b)] *)
Definition operator_assign (this b : nat) : M unit :=
  if decide (this ≠ b) then
    _ ← LockObj this;
    v ← funcList b;
    set_funcList this v
  else mret tt.

(** [operator=(FuncType func)]: [clear] then [push_back] *)
Definition operator_assign_func (this : nat) (func : F) : M unit :=
  _ ← LockObj this;
  _ ← set_funcList this [];
  v ← funcList this;
  set_funcList this (push_back v func).

(** [operator+=(FuncType func)] *)
Definition operator_plus_assign_func (this : nat) (func : F) : M unit :=
  _ ← LockObj this;
  v ← funcList this;
  set_funcList this (push_back v func).

(** [operator+(FuncType func) const] *)
Definition operator_plus_func (this : nat) (func : F) : M Delegate :=
  ret ← local_copy this;
  _ ← operator_plus_assign_func ret func;
  return_local ret.

(** The loop of [operator+=(const Delegate &right)]:
    [for(iter=right.m_funcList.begin(); iter!=right.m_funcList.end(); iter++)
       m_funcList.push_back(iter);]
    The argument of [push_back] is [iter] itself, not [*iter]. *)
Fixpoint plus_assign_loop (budget : nat) (this right : nat) (iter : iterator) : M unit :=
  match budget with
  | 0 => lift (Fault loop_budget)
  | S n =>
      r ← funcList right;
      go ← lift (iter_ne iter (v_end r));
      if go : bool then
        v ← funcList this;
        v' ← lift (push_back_iterator v iter);
        _ ← set_funcList this v';
        r' ← funcList right;
        iter' ← lift (iter_incr r' iter);
        plus_assign_loop n this right iter'
      else mret tt
  end.

(** [operator+=(const Delegate &right)] *)
Definition operator_plus_assign (this right : nat) : M unit :=
  _ ← LockObj this;
  r ← funcList right;
  plus_assign_loop (S (length r)) this right (v_begin r).

(** [operator+(const Delegate &right) const] *)
Definition operator_plus (this right : nat) : M Delegate :=
  ret ← local_copy this;
  _ ← operator_plus_assign ret right;
  return_local ret.

(** ** Removal *)

(** The loop of the general class's [operator-=(FuncType func)]:
    [for(iter=m_funcList.begin(); iter!=m_funcList.end();)
       if( *iter==func) iter=m_funcList.erase(iter); else iter++;] *)
Fixpoint minus_assign_func_loop (budget : nat) (this : nat) (func : F)
    (iter : iterator) : M unit :=
  match budget with
  | 0 => lift (Fault loop_budget)
  | S n =>
      v ← funcList this;
      go ← lift (iter_ne iter (v_end v));
      if go : bool then
        g ← lift (iter_deref v iter);
        if decide (g = func) then
          '(v', iter') ← lift (erase v iter);
          _ ← set_funcList this v';
          minus_assign_func_loop n this func iter'
        else
          iter' ← lift (iter_incr v iter);
          minus_assign_func_loop n this func iter'
      else mret tt
  end.

(** [Delegate<RetType,ArgType>::operator-=(FuncType func)] *)
Definition operator_minus_assign_func (this : nat) (func : F) : M unit :=
  _ ← LockObj this;
  v ← funcList this;
  minus_assign_func_loop (S (length v)) this func (v_begin v).

(** [Delegate<RetType,ArgType>::operator-(FuncType func) const] *)
Definition operator_minus_func (this : nat) (func : F) : M Delegate :=
  ret ← local_copy this;
  _ ← operator_minus_assign_func ret func;
  return_local ret.

(** The loop of the void specialisation's [operator-=(FuncType func)]:
    [for(iter=m_funcList.begin(); iter!=m_funcList.end();)
       if( *iter==func) m_funcList.erase(iter); else iter++;]
    The iterator that [erase] returns is dropped; [iter] keeps the value
    it had, which the erase has invalidated. *)
Fixpoint void_minus_assign_func_loop (budget : nat) (this : nat) (func : F)
    (iter : iterator) : M unit :=
  match budget with
  | 0 => lift (Fault loop_budget)
  | S n =>
      v ← funcList this;
      go ← lift (iter_ne iter (v_end v));
      if go : bool then
        g ← lift (iter_deref v iter);
        if decide (g = func) then
          '(v', _) ← lift (erase v iter);
          _ ← set_funcList this v';
          void_minus_assign_func_loop n this func (after_erase iter iter)
        else
          iter' ← lift (iter_incr v iter);
          void_minus_assign_func_loop n this func iter'
      else mret tt
  end.

(** [Delegate<RetType,void>::operator-=(FuncType func)] *)
Definition void_operator_minus_assign_func (this : nat) (func : F) : M unit :=
  _ ← LockObj this;
  v ← funcList this;
  void_minus_assign_func_loop (S (length v)) this func (v_begin v).

(** [Delegate<RetType,void>::operator-(FuncType func) const] *)
Definition void_operator_minus_func (this : nat) (func : F) : M Delegate :=
  ret ← local_copy this;
  _ ← void_operator_minus_assign_func ret func;
  return_local ret.

(** The inner loop of [operator-=(const Delegate &right)], the same text
    in both classes:
    [for(iter=m_funcList.begin(); iter!=m_funcList.end();)
       if( *iter== *rightIter) m_funcList.erase(iter); else iter++;]
    As above [iter] is not reassigned.  When [right] is [*this] the erase
    also decides what [rightIter] is worth; the loop yields [rightIter]
    as the outer loop finds it afterwards. *)
Fixpoint minus_assign_inner (budget : nat) (this right : nat)
    (rightIter iter : iterator) : M iterator :=
  match budget with
  | 0 => lift (Fault loop_budget)
  | S n =>
      v ← funcList this;
      go ← lift (iter_ne iter (v_end v));
      if go : bool then
        g ← lift (iter_deref v iter);
        r ← funcList right;
        g' ← lift (iter_deref r rightIter);
        if decide (g = g') then
          '(v', _) ← lift (erase v iter);
          _ ← set_funcList this v';
          minus_assign_inner n this right
            (if decide (this = right) then after_erase iter rightIter else rightIter)
            (after_erase iter iter)
        else
          iter' ← lift (iter_incr v iter);
          minus_assign_inner n this right rightIter iter'
      else mret rightIter
  end.

(** The outer loop:
    [for(rightIter=right.m_funcList.begin(); rightIter!=right.m_funcList.end(); rightIter++)] *)
Fixpoint minus_assign_outer (budget : nat) (this right : nat)
    (rightIter : iterator) : M unit :=
  match budget with
  | 0 => lift (Fault loop_budget)
  | S n =>
      r ← funcList right;
      go ← lift (iter_ne rightIter (v_end r));
      if go : bool then
        v ← funcList this;
        rightIter' ← minus_assign_inner (S (length v)) this right rightIter (v_begin v);
        r' ← funcList right;
        rightIter'' ← lift (iter_incr r' rightIter');
        minus_assign_outer n this right rightIter''
      else mret tt
  end.

(** [operator-=(const Delegate &right)] *)
Definition operator_minus_assign (this right : nat) : M unit :=
  _ ← LockObj this;
  r ← funcList right;
  minus_assign_outer (S (length r)) this right (v_begin r).

(** [operator-(const Delegate &right) const] *)
Definition operator_minus (this right : nat) : M Delegate :=
  ret ← local_copy this;
  _ ← operator_minus_assign ret right;
  return_local ret.

(** ** Indexing *)

(** [operator[](unsigned int idx) const], the same text in both classes.
    It reads [*this] only, so it is a function of the object. *)
Definition operator_index (d : Delegate) (idx : nat) : outcome F :=
  let v := m_funcList d in
  _ ← EP_VERIFY_OUT_OF_RANGE (bool_decide (idx < length v));
  iter ← iter_advance v (v_begin v) idx;
  iter_deref v iter.

(** ** The free operators *)

(** [operator+(FuncType func, const Delegate &right)] *)
Definition plus_func_delegate (func : F) (right : nat) : M Delegate :=
  ret ← alloc (Delegate_of func EP_LOCK_POLICY);
  _ ← operator_plus_assign ret right;
  return_local ret.

(** ** The expression [a + b]

    An operand of [+] in client code is a function pointer or a delegate
    object. *)
Inductive operand : Type :=
  | a_callable (func : F)
  | a_delegate (a : nat).

(** [a + b].  C++ looks among the declared [operator+] only when an
    operand is of class type; then a delegate on the left selects the
    member, a callable on the left of a delegate the free
    [operator+(FuncType func, const Delegate &right)].  With two function
    pointers no operand is of class type: the [+] is the built-in one,
    which two pointers do not have, and the declaration
    [operator+(FuncType func, FuncType func2)] at the end of the header
    (body [Delegate ret(func); ret+=func2; return ret;]), itself not
    admitted as an operator function, is never reached. *)
Definition plus_expression (l r : operand) : M Delegate :=
  match l, r with
  | a_delegate this, a_callable func => operator_plus_func this func
  | a_delegate this, a_delegate b => operator_plus this b
  | a_callable func, a_delegate b => plus_func_delegate func b
  | a_callable func, a_callable func2 => lift (Fault no_user_operator)
  end.

(** ** Invocation *)

(** Targets are opaque code: calling one with an argument in a state of
    the world gives a result and the next state of the world.  Targets do
    not reach the delegate they are called from.  Next to the world the
    embedding keeps the list of the calls made, oldest first. *)

Section Invoke.
Context {A R W : Type}.
Variable call : F → A → W → R * W.

(** [( *iter)(arg)], the result being used or not *)
Definition call_target (f : F) (arg : A) (s : W * list (F * A)) : R * (W * list (F * A)) :=
  let '(r, w) := call f arg s.1 in (r, (w, s.2 ++ [(f, arg)])).

(** The loop of the general class's [operator()(ArgType arg)]:
    [for(iter=m_funcList.begin(); iter!=m_funcList.end(); iter++) {
       lastIterCheck=iter; lastIterCheck++;
       if(lastIterCheck==m_funcList.end()) break; else ( *iter)(arg); }]
    The loop yields [iter] as the [return] statement finds it. *)
Fixpoint call_loop (budget : nat) (v : list F) (arg : A) (iter : iterator)
    (s : W * list (F * A)) : outcome (iterator * (W * list (F * A))) :=
  match budget with
  | 0 => Fault loop_budget
  | S n =>
      go ← iter_ne iter (v_end v);
      if go : bool then
        lastIterCheck ← iter_incr v iter;
        stop ← iter_eq lastIterCheck (v_end v);
        if stop : bool then Ok (iter, s)
        else
          f ← iter_deref v iter;
          let '(_, s') := call_target f arg s in
          iter' ← iter_incr v iter;
          call_loop n v arg iter' s'
      else Ok (iter, s)
  end.

(** [Delegate<RetType,ArgType>::operator()(ArgType arg)]: the loop, then
    [return ( *iter)(arg);].  The result is the returned value, the world
    and the calls made. *)
Definition operator_call (d : Delegate) (arg : A) (w : W) : outcome (R * (W * list (F * A))) :=
  let v := m_funcList d in
  '(iter, s) ← call_loop (S (length v)) v arg (v_begin v) (w, []);
  f ← iter_deref v iter;
  Ok (call_target f arg s).
End Invoke.

Section InvokeVoid.
Context {R W : Type}.
Variable RetType : return_type R.
Variable call : F → W → R * W.

(** [( *iter)()] *)
Definition void_call_target (f : F) (s : W * list F) : R * (W * list F) :=
  let '(r, w) := call f s.1 in (r, (w, s.2 ++ [f])).

(** The loop of the void specialisation's [operator()()]:
    [for(iter=m_funcList.begin(); iter!=m_funcList.end(); iter++) {
       lastIterCheck=iter; lastIterCheck++;
       if(lastIterCheck==m_funcList.end()) return ( *iter)(); else ( *iter)(); }]
    and nothing after the loop: leaving it by its condition reaches the
    closing brace of the function. *)
Fixpoint void_call_loop (budget : nat) (v : list F) (iter : iterator)
    (s : W * list F) : outcome (R * (W * list F)) :=
  match budget with
  | 0 => Fault loop_budget
  | S n =>
      go ← iter_ne iter (v_end v);
      if go : bool then
        lastIterCheck ← iter_incr v iter;
        stop ← iter_eq lastIterCheck (v_end v);
        if stop : bool then
          f ← iter_deref v iter;
          Ok (void_call_target f s)
        else
          f ← iter_deref v iter;
          let '(_, s') := void_call_target f s in
          iter' ← iter_incr v iter;
          void_call_loop n v iter' s'
      else
        r ← end_of_function RetType;
        Ok (r, s)
  end.

(** [Delegate<RetType,void>::operator()()] *)
Definition void_operator_call (d : Delegate) (w : W) : outcome (R * (W * list F)) :=
  let v := m_funcList d in
  void_call_loop (S (length v)) v (v_begin v) (w, []).
End InvokeVoid.

(** ** Objects declared by client code *)

(** [Delegate<RetType,ArgType> d(lockPolicyType);] *)
Definition declare_empty (lockPolicyType : LockPolicy) : M nat :=
  alloc (Delegate_empty lockPolicyType).

(** [Delegate<RetType,ArgType> d(func, lockPolicyType);] *)
Definition declare_of (func : F) (lockPolicyType : LockPolicy) : M nat :=
  alloc (Delegate_of func lockPolicyType).

(** [Delegate<RetType,ArgType> d(orig);] *)
Definition declare_copy (orig : nat) : M nat :=
  d ← load orig; alloc (Delegate_copy d).

(** Client code [d += f] for each [f] of a list, in the order of the list. *)
Fixpoint append_each (this : nat) (fs : list F) : M unit :=
  match fs with
  | [] => mret tt
  | f :: fs' =>
      _ ← operator_plus_assign_func this f;
      append_each this fs'
  end.

End Model.

(** ** What the spec says an invocation is

    "calls every stored target in order with [arg]; discards all return
    values except the last target's": the world after calling the targets
    [fs] in order, every result dropped, and the calls this makes. *)

Definition world_after_calls {F A R W : Type} (call : F → A → W → R * W)
    (fs : list F) (arg : A) (w : W) : W :=
  foldl (fun w f => (call f arg w).2) w fs.

Definition calls_of {F A : Type} (fs : list F) (arg : A) : list (F * A) :=
  (fun f => (f, arg)) <$> fs.

Definition void_world_after_calls {F R W : Type} (call : F → W → R * W)
    (fs : list F) (w : W) : W :=
  foldl (fun w f => (call f w).2) w fs.

(** "removes every occurrence equal to [callable] from the sequence": the
    entries different from [func], in their order. *)
Definition without {F : Type} `{!EqDecision F} (func : F) (v : list F) : list F :=
  filter (fun g => g ≠ func) v.

(** ** Predicates on outcomes, delegates and stores *)

(** The execution has defined behaviour and returns. *)
Definition defined {X : Type} (o : outcome X) : Prop := ∃ x, o = Ok x.

(** The lock of a delegate is the one its policy asks for. *)
Definition lock_matches {F : Type} (d : @Delegate F) : Prop :=
  m_lock d = new_lock (m_lockPolicy d).

Definition store_locks_match {F : Type} (h : gmap nat (@Delegate F)) : Prop :=
  ∀ a d, h !! a = Some d → lock_matches d.

(** From [h] to [h'] nothing but the target sequence of object [this] may
    have changed: the other objects are the same, and [this] is still
    there with the lock and the policy it had. *)
Definition only_funcList_of {F : Type} (this : nat) (h h' : gmap nat (@Delegate F)) : Prop :=
  (∀ a, a ≠ this → h' !! a = h !! a) ∧
  (∀ d', h' !! this = Some d' →
     ∃ d, h !! this = Some d ∧ m_lock d' = m_lock d ∧ m_lockPolicy d' = m_lockPolicy d) ∧
  (∀ d, h !! this = Some d → is_Some (h' !! this)).

Definition writes_only {F X : Type} (this : nat) (m : @M F X) : Prop :=
  ∀ h x h', m h = Ok (x, h') → only_funcList_of this h h'.

(** ** Concrete targets and stores used by the examples below

    Function pointers are numbers; target [f] called with [x] in world [w]
    returns [10 * f + x] (without argument: [10 * f]) and leaves the
    world [w + f]. *)

Definition demo_call (f x w : nat) : nat * nat := (10 * f + x, w + f).
Definition demo_void_call (f w : nat) : nat * nat := (10 * f, w + f).

(** A target of a [Delegate<void,void>]: it returns nothing. *)
Definition demo_void_void_call (f w : nat) : unit * nat := (tt, w + f).

Definition demo_delegate (v : list nat) : @Delegate nat :=
  mkDelegate v (Some NoLock) LOCK_POLICY_NONE.

(** object 0 holds [v0], object 1 holds [v1] *)
Definition demo_store (v0 v1 : list nat) : gmap nat (@Delegate nat) :=
  {[ 0 := demo_delegate v0; 1 := demo_delegate v1 ]}.

(** * Proofs *)

Section Proofs.
Context {F : Type} `{!EqDecision F}.
Implicit Types (h : gmap nat (@Delegate F)) (d : @Delegate F) (v : list F).

(** ** Running the store monad *)

Lemma run_bind {X Y : Type} (m : M X) (k : X → M Y) h :
  (m ≫= k) h = match m h with Ok (x, h') => k x h' | Fault e => Fault e end.
Proof. reflexivity. Qed.

Lemma run_ret {X : Type} (x : X) h : (mret x : M X) h = Ok (x, h).
Proof. reflexivity. Qed.

Lemma run_load a h d : h !! a = Some d → load a h = Ok (d, h).
Proof. intros E. unfold load. by rewrite E. Qed.

Lemma run_funcList a h d : h !! a = Some d → funcList a h = Ok (m_funcList d, h).
Proof. intros E. unfold funcList. by rewrite run_bind, (run_load _ _ _ E). Qed.

Lemma run_LockObj a h d : h !! a = Some d → LockObj a h = Ok (tt, h).
Proof. intros E. unfold LockObj. by rewrite run_bind, (run_load _ _ _ E). Qed.

Lemma run_set_funcList a v h d :
  h !! a = Some d →
  set_funcList a v h = Ok (tt, <[a := mkDelegate v (m_lock d) (m_lockPolicy d)]> h).
Proof. intros E. unfold set_funcList. by rewrite E. Qed.

Lemma run_lift_Ok {X : Type} (x : X) h : lift (Ok x) h = Ok (x, h).
Proof. reflexivity. Qed.

Lemma same_fields d : mkDelegate (m_funcList d) (m_lock d) (m_lockPolicy d) = d.
Proof. by destruct d. Qed.

(** A local object comes and goes without a trace in the store. *)
Lemma fresh_unused h : h !! fresh (dom h) = None.
Proof. apply not_elem_of_dom, is_fresh. Qed.

Lemma local_gone h d d' :
  delete (fresh (dom h)) (<[fresh (dom h) := d']> (<[fresh (dom h) := d]> h)) = h.
Proof.
  rewrite insert_insert_eq, delete_insert_eq.
  apply delete_id, fresh_unused.
Qed.

(** ** Removing one target: the general class *)

Lemma without_cons_eq (func : F) v : without func (func :: v) = without func v.
Proof. unfold without. by rewrite filter_cons_False by (intros E; by apply E). Qed.

Lemma without_cons_ne (func g : F) v :
  g ≠ func → without func (g :: v) = g :: without func v.
Proof. intros E. unfold without. by rewrite filter_cons_True. Qed.

Lemma without_absent (func : F) v : func ∉ v → without func v = v.
Proof.
  induction v as [|g v IH]; intros Hn; [done|].
  apply not_elem_of_cons in Hn as [Hne Hn].
  rewrite without_cons_ne by done. by rewrite IH.
Qed.

Lemma without_gone (func : F) v : func ∉ without func v.
Proof. unfold without. rewrite list_elem_of_filter. intros [Hne _]. by apply Hne. Qed.

Lemma lookup_middle_here {X : Type} (pre suf : list X) (x : X) :
  (pre ++ x :: suf) !! length pre = Some x.
Proof. by rewrite list_lookup_middle. Qed.

Lemma delete_middle_here {X : Type} (pre suf : list X) (x : X) :
  delete (length pre) (pre ++ x :: suf) = pre ++ suf.
Proof. induction pre as [|y pre IH]; simpl; [done|]. by rewrite IH. Qed.

Lemma minus_assign_func_loop_eq n this (func : F) iter :
  minus_assign_func_loop (S n) this func iter =
    (v ← funcList this;
     go ← lift (iter_ne iter (v_end v));
     if go : bool then
       g ← lift (iter_deref v iter);
       if decide (g = func) then
         '(v', iter') ← lift (erase v iter);
         _ ← set_funcList this v';
         minus_assign_func_loop n this func iter'
       else
         iter' ← lift (iter_incr v iter);
         minus_assign_func_loop n this func iter'
     else mret tt).
Proof. reflexivity. Qed.

Lemma minus_assign_func_loop_run (func : F) this suf :
  ∀ pre n h d,
    h !! this = Some d →
    m_funcList d = pre ++ suf →
    length suf < n →
    minus_assign_func_loop n this func (At (length pre)) h =
      Ok (tt, <[this := mkDelegate (pre ++ without func suf) (m_lock d) (m_lockPolicy d)]> h).
Proof.
  induction suf as [|g suf IH]; intros pre n h d Hd Hv Hn.
  - destruct n as [|n]; [lia|]. rewrite app_nil_r in Hv.
    rewrite minus_assign_func_loop_eq, run_bind, (run_funcList _ _ _ Hd), Hv, run_bind.
    unfold v_end, iter_ne. rewrite Nat.eqb_refl. simpl.
    rewrite run_ret. f_equal. f_equal. simpl. rewrite app_nil_r, <- Hv, same_fields.
    symmetry. by apply insert_id.
  - destruct n as [|n]; [simpl in Hn; lia|]. simpl in Hn.
    rewrite minus_assign_func_loop_eq, run_bind, (run_funcList _ _ _ Hd), Hv, run_bind.
    unfold v_end, iter_ne. rewrite length_app. simpl.
    replace (length pre =? length pre + S (length suf)) with false
      by (symmetry; apply Nat.eqb_neq; lia).
    simpl. rewrite run_bind. unfold iter_deref. rewrite lookup_middle_here, run_lift_Ok.
    destruct (decide (g = func)) as [->|Hne].
    + rewrite run_bind. unfold erase.
      rewrite decide_True by (rewrite length_app; simpl; lia).
      rewrite run_lift_Ok, delete_middle_here, run_bind.
      rewrite (run_set_funcList _ _ _ _ Hd).
      rewrite (IH pre n _ (mkDelegate (pre ++ suf) (m_lock d) (m_lockPolicy d)));
        [|by rewrite lookup_insert_eq|done|lia].
      simpl. by rewrite insert_insert_eq, without_cons_eq.
    + rewrite run_bind. unfold iter_incr, iter_advance.
      rewrite decide_True by (rewrite length_app; simpl; lia).
      rewrite run_lift_Ok.
      replace (length pre + 1) with (length (pre ++ [g])) by (rewrite length_app; simpl; lia).
      rewrite (IH (pre ++ [g]) n h d Hd); [|by rewrite <- app_assoc|lia].
      by rewrite without_cons_ne, <- app_assoc.
Qed.

Lemma operator_minus_assign_func_run (func : F) this h d :
  h !! this = Some d →
  operator_minus_assign_func this func h =
    Ok (tt, <[this := mkDelegate (without func (m_funcList d)) (m_lock d) (m_lockPolicy d)]> h).
Proof.
  intros Hd. unfold operator_minus_assign_func.
  rewrite run_bind, (run_LockObj _ _ _ Hd), run_bind, (run_funcList _ _ _ Hd).
  apply (minus_assign_func_loop_run func this (m_funcList d) [] _ h d Hd); [done|lia].
Qed.

(** ** Removing one target: the void specialisation *)

Lemma void_minus_assign_func_loop_eq n this (func : F) iter :
  void_minus_assign_func_loop (S n) this func iter =
    (v ← funcList this;
     go ← lift (iter_ne iter (v_end v));
     if go : bool then
       g ← lift (iter_deref v iter);
       if decide (g = func) then
         '(v', _) ← lift (erase v iter);
         _ ← set_funcList this v';
         void_minus_assign_func_loop n this func (after_erase iter iter)
       else
         iter' ← lift (iter_incr v iter);
         void_minus_assign_func_loop n this func iter'
     else mret tt).
Proof. reflexivity. Qed.

Lemma after_erase_self p : after_erase (At p) (At p) = Invalidated.
Proof. unfold after_erase. by rewrite decide_False by lia. Qed.

(** Once [iter] is invalidated the loop condition itself is undefined. *)
Lemma void_minus_assign_func_loop_invalidated n this (func : F) h d :
  h !! this = Some d →
  void_minus_assign_func_loop (S n) this func Invalidated h = Fault invalid_iterator.
Proof.
  intros Hd.
  by rewrite void_minus_assign_func_loop_eq, run_bind, (run_funcList _ _ _ Hd), run_bind.
Qed.

Lemma void_minus_assign_func_loop_run (func : F) this suf :
  ∀ pre n h d,
    h !! this = Some d →
    m_funcList d = pre ++ suf →
    length suf < n →
    void_minus_assign_func_loop n this func (At (length pre)) h =
      if decide (func ∈ suf) then Fault invalid_iterator else Ok (tt, h).
Proof.
  induction suf as [|g suf IH]; intros pre n h d Hd Hv Hn.
  - destruct n as [|n]; [lia|]. rewrite app_nil_r in Hv.
    rewrite void_minus_assign_func_loop_eq, run_bind, (run_funcList _ _ _ Hd), Hv, run_bind.
    unfold v_end, iter_ne. rewrite Nat.eqb_refl. simpl.
    done.
  - destruct n as [|n]; [simpl in Hn; lia|]. simpl in Hn.
    rewrite void_minus_assign_func_loop_eq, run_bind, (run_funcList _ _ _ Hd), Hv, run_bind.
    unfold v_end, iter_ne. rewrite length_app. simpl.
    replace (length pre =? length pre + S (length suf)) with false
      by (symmetry; apply Nat.eqb_neq; lia).
    simpl. rewrite run_bind. unfold iter_deref. rewrite lookup_middle_here, run_lift_Ok.
    destruct (decide (g = func)) as [->|Hne].
    + rewrite run_bind. unfold erase.
      rewrite decide_True by (rewrite length_app; simpl; lia).
      rewrite run_lift_Ok, delete_middle_here, run_bind.
      rewrite (run_set_funcList _ _ _ _ Hd).
      rewrite (decide_False (P := length pre < length pre)) by lia.
      destruct n as [|n]; [lia|].
      rewrite (void_minus_assign_func_loop_invalidated n this func _
                 (mkDelegate (pre ++ suf) (m_lock d) (m_lockPolicy d)))
        by (by rewrite lookup_insert_eq).
      by rewrite decide_True by apply list_elem_of_here.
    + rewrite run_bind. unfold iter_incr, iter_advance.
      rewrite decide_True by (rewrite length_app; simpl; lia).
      rewrite run_lift_Ok.
      replace (length pre + 1) with (length (pre ++ [g])) by (rewrite length_app; simpl; lia).
      rewrite (IH (pre ++ [g]) n h d Hd); [|by rewrite <- app_assoc|lia].
      destruct (decide (func ∈ suf)) as [Hin|Hin].
      * by rewrite decide_True by (by apply list_elem_of_further).
      * rewrite decide_False; [done|].
        intros [?|?]%elem_of_cons; congruence.
Qed.

(** The void specialisation's removal is defined exactly when there is
    nothing to remove. *)
Lemma void_operator_minus_assign_func_run (func : F) this h d :
  h !! this = Some d →
  void_operator_minus_assign_func this func h =
    if decide (func ∈ m_funcList d) then Fault invalid_iterator else Ok (tt, h).
Proof.
  intros Hd. unfold void_operator_minus_assign_func.
  rewrite run_bind, (run_LockObj _ _ _ Hd), run_bind, (run_funcList _ _ _ Hd).
  apply (void_minus_assign_func_loop_run func this (m_funcList d) [] _ h d Hd); [done|lia].
Qed.

(** ** Locals of the non-mutating operators *)

Lemma run_local_copy this h d :
  h !! this = Some d →
  local_copy this h = Ok (fresh (dom h), <[fresh (dom h) := Delegate_copy d]> h).
Proof. intros Hd. unfold local_copy. by rewrite run_bind, (run_load _ _ _ Hd). Qed.

Lemma run_return_local ret h d :
  h !! ret = Some d →
  return_local ret h = Ok (Delegate_copy d, delete ret h).
Proof. intros Hd. unfold return_local. by rewrite run_bind, (run_load _ _ _ Hd). Qed.

Lemma lookup_beside_fresh h a d d' :
  h !! a = Some d → <[fresh (dom h) := d']> h !! a = Some d.
Proof.
  intros Hd. rewrite lookup_insert_ne; [done|].
  intros E. rewrite <- E, fresh_unused in Hd. discriminate.
Qed.

(** ** Appending *)

Lemma operator_plus_assign_func_run this (func : F) h d :
  h !! this = Some d →
  operator_plus_assign_func this func h =
    Ok (tt, <[this := mkDelegate (m_funcList d ++ [func]) (m_lock d) (m_lockPolicy d)]> h).
Proof.
  intros Hd. unfold operator_plus_assign_func.
  rewrite run_bind, (run_LockObj _ _ _ Hd), run_bind, (run_funcList _ _ _ Hd).
  by rewrite (run_set_funcList _ _ _ _ Hd).
Qed.

Lemma operator_plus_func_run this (func : F) h d :
  h !! this = Some d →
  operator_plus_func this func h =
    Ok (mkDelegate (m_funcList d ++ [func]) (new_lock (m_lockPolicy d)) (m_lockPolicy d), h).
Proof.
  intros Hd. unfold operator_plus_func.
  rewrite run_bind, (run_local_copy _ _ _ Hd), run_bind.
  rewrite (operator_plus_assign_func_run _ _ _ (Delegate_copy d)) by apply lookup_insert_eq.
  erewrite run_return_local by apply lookup_insert_eq.
  by rewrite local_gone.
Qed.

(** Appending a delegate stores nothing: with a target in [right] the
    first turn of the loop hands [push_back] an iterator. *)
Lemma operator_plus_assign_run this right h d r :
  h !! this = Some d →
  h !! right = Some r →
  operator_plus_assign this right h =
    if decide (m_funcList r = []) then Ok (tt, h) else Fault not_a_target.
Proof.
  intros Hd Hr. unfold operator_plus_assign.
  rewrite run_bind, (run_LockObj _ _ _ Hd), run_bind, (run_funcList _ _ _ Hr).
  simpl. rewrite run_bind, (run_funcList _ _ _ Hr), run_bind.
  destruct (m_funcList r) as [|g v]; simpl; [done|].
  by rewrite run_bind, (run_funcList _ _ _ Hd), run_bind.
Qed.

Lemma operator_plus_run this right h d r :
  h !! this = Some d →
  h !! right = Some r →
  operator_plus this right h =
    if decide (m_funcList r = []) then Ok (Delegate_copy (Delegate_copy d), h)
    else Fault not_a_target.
Proof.
  intros Hd Hr. unfold operator_plus.
  rewrite run_bind, (run_local_copy _ _ _ Hd), run_bind.
  rewrite (operator_plus_assign_run _ _ _ (Delegate_copy d) r);
    [|apply lookup_insert_eq|by apply lookup_beside_fresh].
  destruct (decide (m_funcList r = [])); [|done].
  erewrite run_return_local by apply lookup_insert_eq.
  rewrite delete_insert_eq. by rewrite delete_id by apply fresh_unused.
Qed.

Lemma plus_func_delegate_run policy (func : F) right h r :
  h !! right = Some r →
  plus_func_delegate policy func right h =
    if decide (m_funcList r = []) then Ok (Delegate_copy (Delegate_of func policy), h)
    else Fault not_a_target.
Proof.
  intros Hr. unfold plus_func_delegate.
  rewrite run_bind. unfold alloc at 1. rewrite run_bind.
  rewrite (operator_plus_assign_run _ _ _ (Delegate_of func policy) r);
    [|apply lookup_insert_eq|by apply lookup_beside_fresh].
  destruct (decide (m_funcList r = [])); [|done].
  erewrite run_return_local by apply lookup_insert_eq.
  rewrite delete_insert_eq. by rewrite delete_id by apply fresh_unused.
Qed.

(** ** Removing the targets of a delegate *)

Lemma operator_minus_func_run this (func : F) h d :
  h !! this = Some d →
  operator_minus_func this func h =
    Ok (mkDelegate (without func (m_funcList d))
          (new_lock (m_lockPolicy d)) (m_lockPolicy d), h).
Proof.
  intros Hd. unfold operator_minus_func.
  rewrite run_bind, (run_local_copy _ _ _ Hd), run_bind.
  rewrite (operator_minus_assign_func_run _ _ _ (Delegate_copy d)) by apply lookup_insert_eq.
  erewrite run_return_local by apply lookup_insert_eq.
  by rewrite local_gone.
Qed.

Lemma void_operator_minus_func_run this (func : F) h d :
  h !! this = Some d →
  void_operator_minus_func this func h =
    if decide (func ∈ m_funcList d) then Fault invalid_iterator
    else Ok (Delegate_copy (Delegate_copy d), h).
Proof.
  intros Hd. unfold void_operator_minus_func.
  rewrite run_bind, (run_local_copy _ _ _ Hd), run_bind.
  rewrite (void_operator_minus_assign_func_run _ _ _ (Delegate_copy d))
    by apply lookup_insert_eq.
  simpl. destruct (decide (func ∈ m_funcList d)); [done|].
  erewrite run_return_local by apply lookup_insert_eq.
  rewrite delete_insert_eq. by rewrite delete_id by apply fresh_unused.
Qed.

Lemma minus_assign_inner_eq n this right rightIter iter :
  minus_assign_inner (F := F) (S n) this right rightIter iter =
    (v ← funcList this;
     go ← lift (iter_ne iter (v_end v));
     if go : bool then
       g ← lift (iter_deref v iter);
       r ← funcList right;
       g' ← lift (iter_deref r rightIter);
       if decide (g = g') then
         '(v', _) ← lift (erase v iter);
         _ ← set_funcList this v';
         minus_assign_inner n this right
           (if decide (this = right) then after_erase iter rightIter else rightIter)
           (after_erase iter iter)
       else
         iter' ← lift (iter_incr v iter);
         minus_assign_inner n this right rightIter iter'
     else mret rightIter).
Proof. reflexivity. Qed.

Lemma minus_assign_inner_invalidated n this right rightIter h d :
  h !! this = Some d →
  minus_assign_inner (S n) this right rightIter Invalidated h = Fault invalid_iterator.
Proof.
  intros Hd.
  by rewrite minus_assign_inner_eq, run_bind, (run_funcList _ _ _ Hd), run_bind.
Qed.

(** One turn of the outer loop: the scan of [m_funcList] for [*rightIter]
    passes over the entries that differ and stops being defined at the
    first that matches.  [this] and [right] may be one object. *)
Lemma minus_assign_inner_run this right q (g' : F) suf :
  ∀ pre n h d r,
    h !! this = Some d →
    h !! right = Some r →
    m_funcList r !! q = Some g' →
    m_funcList d = pre ++ suf →
    length suf < n →
    minus_assign_inner n this right (At q) (At (length pre)) h =
      if decide (g' ∈ suf) then Fault invalid_iterator else Ok (At q, h).
Proof.
  induction suf as [|g suf IH]; intros pre n h d r Hd Hr Hq Hv Hn.
  - destruct n as [|n]; [lia|]. rewrite app_nil_r in Hv.
    rewrite minus_assign_inner_eq, run_bind, (run_funcList _ _ _ Hd), Hv, run_bind.
    unfold v_end, iter_ne. rewrite Nat.eqb_refl. done.
  - destruct n as [|n]; [simpl in Hn; lia|]. simpl in Hn.
    rewrite minus_assign_inner_eq, run_bind, (run_funcList _ _ _ Hd), Hv, run_bind.
    unfold v_end, iter_ne. rewrite length_app. simpl length.
    replace (length pre =? length pre + S (length suf)) with false
      by (symmetry; apply Nat.eqb_neq; lia).
    simpl negb. rewrite run_lift_Ok. cbv iota.
    rewrite run_bind. unfold iter_deref at 1. rewrite lookup_middle_here, run_lift_Ok.
    rewrite run_bind, (run_funcList _ _ _ Hr), run_bind.
    unfold iter_deref. rewrite Hq, run_lift_Ok.
    destruct (decide (g = g')) as [->|Hne].
    + rewrite run_bind. unfold erase.
      rewrite decide_True by (rewrite length_app; simpl; lia).
      rewrite run_lift_Ok, delete_middle_here, run_bind.
      rewrite (run_set_funcList _ _ _ _ Hd).
      rewrite after_erase_self.
      destruct n as [|n]; [lia|].
      rewrite (minus_assign_inner_invalidated n this right _ _
                 (mkDelegate (pre ++ suf) (m_lock d) (m_lockPolicy d)))
        by (by rewrite lookup_insert_eq).
      by rewrite decide_True by apply list_elem_of_here.
    + rewrite run_bind. unfold iter_incr, iter_advance.
      rewrite decide_True by (rewrite length_app; simpl; lia).
      rewrite run_lift_Ok.
      replace (length pre + 1) with (length (pre ++ [g])) by (rewrite length_app; simpl; lia).
      rewrite (IH (pre ++ [g]) n h d r Hd Hr Hq); [|by rewrite <- app_assoc|lia].
      destruct (decide (g' ∈ suf)) as [Hin|Hin].
      * by rewrite decide_True by (by apply list_elem_of_further).
      * rewrite decide_False; [done|].
        intros [?|?]%elem_of_cons; congruence.
Qed.

Lemma minus_assign_outer_eq n this right rightIter :
  minus_assign_outer (F := F) (S n) this right rightIter =
    (r ← funcList right;
     go ← lift (iter_ne rightIter (v_end r));
     if go : bool then
       v ← funcList this;
       rightIter' ← minus_assign_inner (S (length v)) this right rightIter (v_begin v);
       r' ← funcList right;
       rightIter'' ← lift (iter_incr r' rightIter');
       minus_assign_outer n this right rightIter''
     else mret tt).
Proof. reflexivity. Qed.

Lemma minus_assign_outer_run this right rsuf :
  ∀ rpre n h d r,
    h !! this = Some d →
    h !! right = Some r →
    m_funcList r = rpre ++ rsuf →
    length rsuf < n →
    minus_assign_outer n this right (At (length rpre)) h =
      if decide (Exists (fun g => g ∈ m_funcList d) rsuf)
      then Fault invalid_iterator else Ok (tt, h).
Proof.
  induction rsuf as [|g' rsuf IH]; intros rpre n h d r Hd Hr Hv Hn.
  - destruct n as [|n]; [lia|]. rewrite app_nil_r in Hv.
    rewrite minus_assign_outer_eq, run_bind, (run_funcList _ _ _ Hr), Hv, run_bind.
    unfold v_end, iter_ne. rewrite Nat.eqb_refl. done.
  - destruct n as [|n]; [simpl in Hn; lia|]. simpl in Hn.
    rewrite minus_assign_outer_eq, run_bind, (run_funcList _ _ _ Hr), Hv, run_bind.
    unfold v_end, iter_ne. rewrite length_app. simpl length.
    replace (length rpre =? length rpre + S (length rsuf)) with false
      by (symmetry; apply Nat.eqb_neq; lia).
    simpl negb. rewrite run_lift_Ok. cbv iota.
    rewrite run_bind, (run_funcList _ _ _ Hd), run_bind.
    rewrite (minus_assign_inner_run this right (length rpre) g' (m_funcList d) [] _ h d r Hd Hr);
      [| by rewrite Hv, lookup_middle_here | done | unfold v_begin; lia].
    destruct (decide (g' ∈ m_funcList d)) as [Hin|Hin].
    + rewrite decide_True; [done|]. by apply Exists_cons_hd.
    + rewrite run_bind, (run_funcList _ _ _ Hr), Hv, run_bind.
      unfold iter_incr, iter_advance.
      rewrite decide_True by (rewrite length_app; simpl; lia).
      rewrite run_lift_Ok.
      replace (length rpre + 1) with (length (rpre ++ [g']))
        by (rewrite length_app; simpl; lia).
      rewrite (IH (rpre ++ [g']) n h d r Hd Hr); [|by rewrite Hv, <- app_assoc|lia].
      destruct (decide (Exists (fun g => g ∈ m_funcList d) rsuf)) as [Hex|Hex].
      * rewrite decide_True; [done|]. by apply Exists_cons_tl.
      * rewrite decide_False; [done|].
        intros [?|?]%Exists_cons; done.
Qed.

(** [operator-=(const Delegate &right)] is defined exactly when no target
    of [right] occurs in [*this], and then it changes nothing. *)
Lemma operator_minus_assign_run this right h d r :
  h !! this = Some d →
  h !! right = Some r →
  operator_minus_assign this right h =
    if decide (Exists (fun g => g ∈ m_funcList d) (m_funcList r))
    then Fault invalid_iterator else Ok (tt, h).
Proof.
  intros Hd Hr. unfold operator_minus_assign.
  rewrite run_bind, (run_LockObj _ _ _ Hd), run_bind, (run_funcList _ _ _ Hr).
  apply (minus_assign_outer_run this right (m_funcList r) [] _ h d r Hd Hr); [done|lia].
Qed.

Lemma operator_minus_run this right h d r :
  h !! this = Some d →
  h !! right = Some r →
  operator_minus this right h =
    if decide (Exists (fun g => g ∈ m_funcList d) (m_funcList r))
    then Fault invalid_iterator else Ok (Delegate_copy (Delegate_copy d), h).
Proof.
  intros Hd Hr. unfold operator_minus.
  rewrite run_bind, (run_local_copy _ _ _ Hd), run_bind.
  rewrite (operator_minus_assign_run _ _ _ (Delegate_copy d) r);
    [|apply lookup_insert_eq|by apply lookup_beside_fresh].
  simpl m_funcList.
  destruct (decide (Exists (fun g => g ∈ m_funcList d) (m_funcList r))); [done|].
  erewrite run_return_local by apply lookup_insert_eq.
  rewrite delete_insert_eq. by rewrite delete_id by apply fresh_unused.
Qed.

(** ** Indexing *)

Lemma operator_index_run d idx :
  operator_index d idx =
    match m_funcList d !! idx with
    | Some f => Ok f
    | None => Fault out_of_range
    end.
Proof.
  unfold operator_index, EP_VERIFY_OUT_OF_RANGE.
  destruct (m_funcList d !! idx) as [f|] eqn:E.
  - pose proof (lookup_lt_Some _ _ _ E) as Hlt.
    rewrite bool_decide_eq_true_2 by done.
    unfold iter_advance, v_begin. rewrite decide_True by lia.
    simpl. by rewrite E.
  - apply lookup_ge_None in E.
    by rewrite bool_decide_eq_false_2 by lia.
Qed.

(** ** Iterators in the middle of a vector *)

Section vector_facts.
Context {T : Type}.
Implicit Types (pre suf : list T) (x : T).

Lemma ne_end_here pre : iter_ne (At (length pre)) (v_end pre) = Ok false.
Proof. unfold iter_ne, v_end. by rewrite Nat.eqb_refl. Qed.

Lemma ne_end_middle pre x suf :
  iter_ne (At (length pre)) (v_end (pre ++ x :: suf)) = Ok true.
Proof.
  unfold iter_ne, v_end. rewrite length_app. simpl.
  by rewrite (proj2 (Nat.eqb_neq _ _)) by lia.
Qed.

Lemma deref_middle pre x suf : iter_deref (pre ++ x :: suf) (At (length pre)) = Ok x.
Proof. unfold iter_deref. by rewrite list_lookup_middle. Qed.

Lemma incr_middle pre x suf :
  iter_incr (pre ++ x :: suf) (At (length pre)) = Ok (At (length (pre ++ [x]))).
Proof.
  unfold iter_incr, iter_advance.
  rewrite decide_True by (rewrite length_app; simpl; lia).
  by rewrite length_app.
Qed.

Lemma at_end pre x : iter_eq (At (length (pre ++ [x]))) (v_end (pre ++ [x])) = Ok true.
Proof. unfold iter_eq, v_end. by rewrite Nat.eqb_refl. Qed.

Lemma not_at_end pre x suf :
  suf ≠ [] →
  iter_eq (At (length (pre ++ [x]))) (v_end (pre ++ x :: suf)) = Ok false.
Proof.
  intros Hne. unfold iter_eq, v_end. rewrite !length_app. simpl.
  destruct suf; [done|]. simpl.
  by rewrite (proj2 (Nat.eqb_neq _ _)) by lia.
Qed.

End vector_facts.

(** ** Invocation: the general class *)

Section InvokeProofs.
Context {A R W : Type} (call : F → A → W → R * W).

Lemma call_target_eq (f : F) (arg : A) (s : W * list (F * A)) :
  call_target call f arg s =
    ((call f arg s.1).1, ((call f arg s.1).2, s.2 ++ [(f, arg)])).
Proof. unfold call_target. by destruct (call f arg s.1). Qed.

Lemma call_loop_eq n v (arg : A) iter (s : W * list (F * A)) :
  call_loop call (S n) v arg iter s =
    (go ← iter_ne iter (v_end v);
     if go : bool then
       lastIterCheck ← iter_incr v iter;
       stop ← iter_eq lastIterCheck (v_end v);
       if stop : bool then Ok (iter, s)
       else
         f ← iter_deref v iter;
         let '(_, s') := call_target call f arg s in
         iter' ← iter_incr v iter;
         call_loop call n v arg iter' s'
     else Ok (iter, s)).
Proof. reflexivity. Qed.

(** The loop calls the targets before the last one, in order, and stops
    with [iter] on the last one. *)
Lemma call_loop_run (arg : A) (g : F) suf :
  ∀ pre n w lg,
    length suf < n →
    call_loop call n (pre ++ suf ++ [g]) arg (At (length pre)) (w, lg) =
      Ok (At (length (pre ++ suf)),
          (world_after_calls call suf arg w, lg ++ calls_of suf arg)).
Proof.
  induction suf as [|f suf IH]; intros pre n w lg Hn.
  - destruct n as [|n]; [lia|].
    rewrite call_loop_eq. simpl app.
    rewrite ne_end_middle. cbn [mbind outcome_bind].
    rewrite incr_middle. cbn [mbind outcome_bind].
    rewrite at_end. cbn [mbind outcome_bind].
    by rewrite !app_nil_r.
  - destruct n as [|n]; [simpl in Hn; lia|]. simpl in Hn.
    rewrite call_loop_eq. simpl app.
    rewrite ne_end_middle. cbn [mbind outcome_bind].
    rewrite incr_middle. cbn [mbind outcome_bind].
    rewrite not_at_end by (by destruct suf). cbn [mbind outcome_bind].
    rewrite deref_middle. cbn [mbind outcome_bind].
    rewrite call_target_eq. cbn [fst snd].
    replace (pre ++ f :: suf ++ [g]) with ((pre ++ [f]) ++ suf ++ [g])
      by (by rewrite <- app_assoc).
    rewrite IH by lia. unfold calls_of. simpl.
    by rewrite <- !app_assoc.
Qed.

Lemma operator_call_run d (arg : A) (w : W) fs g :
  m_funcList d = fs ++ [g] →
  operator_call call d arg w =
    Ok ((call g arg (world_after_calls call fs arg w)).1,
        ((call g arg (world_after_calls call fs arg w)).2,
         calls_of (m_funcList d) arg)).
Proof.
  intros Hv. unfold operator_call. rewrite Hv. unfold v_begin.
  rewrite (call_loop_run arg g fs [] _ w []) by (rewrite length_app; simpl; lia).
  cbn [mbind outcome_bind app]. rewrite deref_middle. cbn [mbind outcome_bind].
  rewrite call_target_eq. simpl. unfold calls_of. by rewrite fmap_app.
Qed.

Lemma operator_call_empty d (arg : A) (w : W) :
  m_funcList d = [] → operator_call call d arg w = Fault past_the_end.
Proof. intros Hv. unfold operator_call. by rewrite Hv. Qed.

End InvokeProofs.

(** ** Invocation: the void specialisation *)

Section InvokeVoidProofs.
Context {R W : Type} (RetType : return_type R) (call : F → W → R * W).

Lemma void_call_target_eq (f : F) (s : W * list F) :
  void_call_target call f s = ((call f s.1).1, ((call f s.1).2, s.2 ++ [f])).
Proof. unfold void_call_target. by destruct (call f s.1). Qed.

Lemma void_call_loop_eq n v iter (s : W * list F) :
  void_call_loop RetType call (S n) v iter s =
    (go ← iter_ne iter (v_end v);
     if go : bool then
       lastIterCheck ← iter_incr v iter;
       stop ← iter_eq lastIterCheck (v_end v);
       if stop : bool then
         f ← iter_deref v iter;
         Ok (void_call_target call f s)
       else
         f ← iter_deref v iter;
         let '(_, s') := void_call_target call f s in
         iter' ← iter_incr v iter;
         void_call_loop RetType call n v iter' s'
     else
       r ← end_of_function RetType;
       Ok (r, s)).
Proof. reflexivity. Qed.

Lemma void_call_loop_run (g : F) suf :
  ∀ pre n w lg,
    length suf < n →
    void_call_loop RetType call n (pre ++ suf ++ [g]) (At (length pre)) (w, lg) =
      Ok ((call g (void_world_after_calls call suf w)).1,
          ((call g (void_world_after_calls call suf w)).2, lg ++ suf ++ [g])).
Proof.
  induction suf as [|f suf IH]; intros pre n w lg Hn.
  - destruct n as [|n]; [lia|].
    rewrite void_call_loop_eq. simpl app.
    rewrite ne_end_middle. cbn [mbind outcome_bind].
    rewrite incr_middle. cbn [mbind outcome_bind].
    rewrite at_end. cbn [mbind outcome_bind].
    rewrite deref_middle. cbn [mbind outcome_bind].
    by rewrite void_call_target_eq.
  - destruct n as [|n]; [simpl in Hn; lia|]. simpl in Hn.
    rewrite void_call_loop_eq. simpl app.
    rewrite ne_end_middle. cbn [mbind outcome_bind].
    rewrite incr_middle. cbn [mbind outcome_bind].
    rewrite not_at_end by (by destruct suf). cbn [mbind outcome_bind].
    rewrite deref_middle. cbn [mbind outcome_bind].
    rewrite void_call_target_eq. cbn [fst snd].
    replace (pre ++ f :: suf ++ [g]) with ((pre ++ [f]) ++ suf ++ [g])
      by (by rewrite <- app_assoc).
    rewrite IH by lia. simpl.
    by rewrite <- !app_assoc.
Qed.

Lemma void_operator_call_run d (w : W) fs g :
  m_funcList d = fs ++ [g] →
  void_operator_call RetType call d w =
    Ok ((call g (void_world_after_calls call fs w)).1,
        ((call g (void_world_after_calls call fs w)).2, m_funcList d)).
Proof.
  intros Hv. unfold void_operator_call. rewrite Hv. unfold v_begin.
  by rewrite (void_call_loop_run g fs [] _ w []) by (rewrite length_app; simpl; lia).
Qed.

(** On an empty sequence the loop is not entered and the function ends
    at its closing brace, having called nothing. *)
Lemma void_operator_call_empty d (w : W) :
  m_funcList d = [] →
  void_operator_call RetType call d w =
    match RetType with
    | value_type => Fault missing_return
    | void_type u => Ok (u, (w, []))
    end.
Proof. intros Hv. unfold void_operator_call. rewrite Hv. by destruct RetType. Qed.

End InvokeVoidProofs.

Lemma nonempty_last v : v ≠ [] → ∃ fs g, v = fs ++ [g].
Proof.
  intros Hne. induction v as [|g fs _] using rev_ind; [done|by eauto].
Qed.

(** ** The operators that do not mutate

    Each of them works on a local copy: whenever it returns, the store is
    the store it was called in. *)
Lemma operators_on_a_copy_leave_the_store policy this right (func : F) h d r :
  h !! this = Some d →
  h !! right = Some r →
  (∀ ret h', operator_plus_func this func h = Ok (ret, h') → h' = h) ∧
  (∀ ret h', operator_minus_func this func h = Ok (ret, h') → h' = h) ∧
  (∀ ret h', void_operator_minus_func this func h = Ok (ret, h') → h' = h) ∧
  (∀ ret h', operator_plus this right h = Ok (ret, h') → h' = h) ∧
  (∀ ret h', operator_minus this right h = Ok (ret, h') → h' = h) ∧
  (∀ ret h', plus_func_delegate policy func right h = Ok (ret, h') → h' = h).
Proof.
  intros Hd Hr.
  rewrite (operator_plus_func_run _ _ _ _ Hd), (operator_minus_func_run _ _ _ _ Hd),
    (void_operator_minus_func_run _ _ _ _ Hd), (operator_plus_run _ _ _ _ _ Hd Hr),
    (operator_minus_run _ _ _ _ _ Hd Hr), (plus_func_delegate_run _ _ _ _ _ Hr).
  repeat split; intros ret h'; repeat case_decide; congruence.
Qed.

(** ** The loop budgets suffice

    No operation ends because the budget of one of its loops ran out. *)
Lemma structural_operators_within_budget this right (func : F) h :
  operator_plus_assign this right h ≠ Fault loop_budget ∧
  operator_minus_assign_func this func h ≠ Fault loop_budget ∧
  void_operator_minus_assign_func this func h ≠ Fault loop_budget ∧
  operator_minus_assign this right h ≠ Fault loop_budget.
Proof.
  destruct (h !! this) as [d|] eqn:Hd.
  - rewrite (operator_minus_assign_func_run _ _ _ _ Hd),
      (void_operator_minus_assign_func_run _ _ _ _ Hd).
    destruct (h !! right) as [r|] eqn:Hr.
    + rewrite (operator_plus_assign_run _ _ _ _ _ Hd Hr),
        (operator_minus_assign_run _ _ _ _ _ Hd Hr).
      repeat split; repeat case_decide; discriminate.
    + unfold operator_plus_assign, operator_minus_assign.
      rewrite !run_bind, (run_LockObj _ _ _ Hd), !run_bind.
      unfold funcList. rewrite !run_bind. unfold load. rewrite Hr.
      repeat split; repeat case_decide; discriminate.
  - unfold operator_plus_assign, operator_minus_assign_func,
      void_operator_minus_assign_func, operator_minus_assign.
    rewrite !run_bind. unfold LockObj. rewrite !run_bind. unfold load. rewrite Hd.
    repeat split; discriminate.
Qed.

Lemma invocations_within_budget {A R R0 W : Type}
    (call : F → A → W → R * W)
    (RetType : return_type R0) (call0 : F → W → R0 * W) d (x : A) (w : W) :
  operator_call call d x w ≠ Fault loop_budget ∧
  void_operator_call RetType call0 d w ≠ Fault loop_budget.
Proof.
  destruct (decide (m_funcList d = [])) as [Hv|Hv].
  - rewrite (operator_call_empty call d x w Hv),
      (void_operator_call_empty RetType call0 d w Hv).
    split; [discriminate|by destruct RetType].
  - destruct (nonempty_last _ Hv) as (fs & g & Hfs).
    rewrite (operator_call_run call d x w fs g Hfs),
      (void_operator_call_run RetType call0 d w fs g Hfs).
    split; discriminate.
Qed.

(** * The claims *)

(** C1. For every delegate whose target sequence is not empty and every
    argument [x], invocation (the general [operator()(ArgType)] and the
    void specialisation's [operator()()]) calls every stored target exactly
    once, in insertion order, each with [x], and returns the result of the
    last target; the results of the other targets are dropped. *)
Theorem C1_invoke_calls_all_in_order_returns_last {A R R0 W : Type}
    (call : F → A → W → R * W)
    (RetType : return_type R0) (call0 : F → W → R0 * W) d (x : A) (w : W) :
  m_funcList d ≠ [] →
  ∃ fs g,
    m_funcList d = fs ++ [g] ∧
    operator_call call d x w =
      Ok ((call g x (world_after_calls call fs x w)).1,
          ((call g x (world_after_calls call fs x w)).2,
           calls_of (m_funcList d) x)) ∧
    void_operator_call RetType call0 d w =
      Ok ((call0 g (void_world_after_calls call0 fs w)).1,
          ((call0 g (void_world_after_calls call0 fs w)).2, m_funcList d)).
Proof.
  intros Hne. destruct (nonempty_last _ Hne) as (fs & g & Hv).
  exists fs, g. split; [done|]. split.
  - by apply operator_call_run.
  - by apply void_operator_call_run.
Qed.

(** C4 (amended). On a delegate whose target sequence is empty no target
    is called and no explicit failure is raised.  The general form fails:
    its [return] dereferences [end()].  The void specialisation reaches
    the closing brace of the function: that is a failure when [RetType] is
    a value type, and a normal return when [RetType] is [void].  On a
    delegate whose sequence is not empty neither form fails. *)
Theorem C4_invoke_on_empty {A R R0 W : Type}
    (call : F → A → W → R * W)
    (RetType : return_type R0) (call0 : F → W → R0 * W) d (x : A) (w : W) :
  (operator_call call d x w = Fault past_the_end ↔ m_funcList d = []) ∧
  ((∃ e, operator_call call d x w = Fault e) ↔ m_funcList d = []) ∧
  (void_operator_call RetType call0 d w = Fault missing_return ↔
     m_funcList d = [] ∧ RetType = value_type) ∧
  ((∃ e, void_operator_call RetType call0 d w = Fault e) ↔
     m_funcList d = [] ∧ RetType = value_type) ∧
  (∀ u, m_funcList d = [] → RetType = void_type u →
     void_operator_call RetType call0 d w = Ok (u, (w, []))).
Proof.
  destruct (decide (m_funcList d = [])) as [Hv|Hv].
  - pose proof (operator_call_empty call d x w Hv) as Hg.
    pose proof (void_operator_call_empty RetType call0 d w Hv) as H0.
    rewrite Hg, H0. split; [done|]. split; [split; [done|by eauto]|].
    destruct RetType as [|u].
    + split; [done|]. split; [split; [done|by eauto]|]. by intros u _ Hu.
    + split; [split; [done|by intros [_ Hu]]|].
      split; [split; [by intros [e He]|by intros [_ Hu]]|].
      by intros u' _ [= ->].
  - destruct (nonempty_last _ Hv) as (fs & g & Hfs).
    rewrite (operator_call_run call d x w fs g Hfs).
    rewrite (void_operator_call_run RetType call0 d w fs g Hfs).
    split; [done|]. split; [split; [by intros [e ?]|done]|].
    split; [split; [done|by intros [? _]]|].
    split; [split; [by intros [e ?]|by intros [? _]]|].
    by intros u ? _.
Qed.

(** C6. [operator[]] on a delegate with [count] targets fails with the
    range violation for every [i ≥ count], with no partial result, and for
    every [i < count] returns the [i]-th target in insertion order; at
    [count - 1] that is the last target. *)
Theorem C6_index_in_and_out_of_range d (i : nat) :
  (length (m_funcList d) ≤ i → operator_index d i = Fault out_of_range) ∧
  (i < length (m_funcList d) →
     ∃ f, m_funcList d !! i = Some f ∧ operator_index d i = Ok f) ∧
  (∀ fs g, m_funcList d = fs ++ [g] →
     operator_index d (length (m_funcList d) - 1) = Ok g).
Proof.
  split; [|split].
  - intros Hge. rewrite operator_index_run.
    by rewrite (proj2 (lookup_ge_None _ _) Hge).
  - intros Hlt. destruct (lookup_lt_is_Some_2 _ _ Hlt) as [f Hf].
    exists f. split; [done|]. by rewrite operator_index_run, Hf.
  - intros fs g Hv. rewrite operator_index_run, Hv, length_app. simpl.
    replace (length fs + 1 - 1) with (length fs) by lia.
    by rewrite list_lookup_middle.
Qed.

(** C9. On a non-empty delegate, removing a callable that does not occur
    in the target sequence raises no error and leaves the delegate, and
    the whole store, exactly as it was (both classes). *)
Theorem C9_remove_absent_is_noop this (func : F) h d :
  h !! this = Some d →
  m_funcList d ≠ [] →
  func ∉ m_funcList d →
  operator_minus_assign_func this func h = Ok (tt, h) ∧
  void_operator_minus_assign_func this func h = Ok (tt, h).
Proof.
  intros Hd _ Hnot. split.
  - rewrite (operator_minus_assign_func_run _ _ _ _ Hd).
    rewrite without_absent by done. rewrite same_fields.
    by rewrite insert_id.
  - rewrite (void_operator_minus_assign_func_run _ _ _ _ Hd).
    by rewrite decide_False.
Qed.


(** * Further properties of the code *)

(** ** What the mutating members write *)

Lemma only_funcList_of_refl this h : only_funcList_of this h h.
Proof. split; [done|]. split; [by eauto|]. by eauto. Qed.

Lemma only_funcList_of_trans this h1 h2 h3 :
  only_funcList_of this h1 h2 → only_funcList_of this h2 h3 →
  only_funcList_of this h1 h3.
Proof.
  intros (Ho1 & Ht1 & Hs1) (Ho2 & Ht2 & Hs2). split; [|split].
  - intros a Ha. by rewrite Ho2, Ho1.
  - intros d3 Hd3. destruct (Ht2 d3 Hd3) as (d2 & Hd2 & Hl2 & Hp2).
    destruct (Ht1 d2 Hd2) as (d1 & Hd1 & Hl1 & Hp1).
    exists d1. split; [done|]. split; congruence.
  - intros d1 Hd1. destruct (Hs1 d1 Hd1) as [d2 Hd2]. by eapply Hs2.
Qed.

Lemma writes_only_ret {X : Type} this (x : X) : writes_only this (mret x : @M F X).
Proof. intros h y h' [= _ <-]. apply only_funcList_of_refl. Qed.

Lemma writes_only_bind {X Y : Type} this (m : @M F X) (k : X → @M F Y) :
  writes_only this m → (∀ x, writes_only this (k x)) → writes_only this (m ≫= k).
Proof.
  intros Hm Hk h y h'. rewrite run_bind.
  destruct (m h) as [[x h1]|e] eqn:E; [|done].
  intros Hy. eapply only_funcList_of_trans; [by eapply Hm|by eapply Hk].
Qed.

Lemma writes_only_lift {X : Type} this (o : outcome X) : writes_only this (lift o : @M F X).
Proof.
  intros h y h'. unfold lift. destruct o; [|done].
  intros [= _ <-]. apply only_funcList_of_refl.
Qed.

Lemma writes_only_load this a : writes_only this (load (F := F) a).
Proof.
  intros h y h'. unfold load. destruct (h !! a); [|done].
  intros [= _ <-]. apply only_funcList_of_refl.
Qed.

Lemma writes_only_funcList this a : writes_only this (funcList (F := F) a).
Proof.
  apply writes_only_bind; [apply writes_only_load|]. intros d. apply writes_only_ret.
Qed.

Lemma writes_only_LockObj this a : writes_only this (LockObj (F := F) a).
Proof.
  apply writes_only_bind; [apply writes_only_load|]. intros d. apply writes_only_ret.
Qed.

Lemma writes_only_set_funcList this v : writes_only this (set_funcList this v).
Proof.
  intros h y h'. unfold set_funcList. destruct (h !! this) as [d|] eqn:Hd; [|done].
  intros [= _ <-]. split; [|split].
  - intros a Ha. by rewrite lookup_insert_ne.
  - intros d'. rewrite lookup_insert_eq. intros [= <-]. by exists d.
  - intros d0 _. by rewrite lookup_insert_eq.
Qed.

Local Ltac writes_only_step :=
  first
    [ apply writes_only_ret
    | apply writes_only_lift
    | apply writes_only_LockObj
    | apply writes_only_funcList
    | apply writes_only_set_funcList
    | apply writes_only_bind; [|intros ?]
    | match goal with
      | |- writes_only _ (if ?b then _ else _) => destruct b
      | |- writes_only _ (let '(_, _) := ?p in _) => destruct p
      | |- writes_only _ (match ?p with _ => _ end) => destruct p
      end ].

Lemma writes_only_plus_assign_loop this right n iter :
  writes_only this (plus_assign_loop (F := F) n this right iter).
Proof.
  revert iter. induction n as [|n IH]; intros iter; simpl; [apply writes_only_lift|].
  repeat writes_only_step. apply IH.
Qed.

Lemma writes_only_minus_assign_func_loop this (func : F) n iter :
  writes_only this (minus_assign_func_loop n this func iter).
Proof.
  revert iter. induction n as [|n IH]; intros iter; simpl; [apply writes_only_lift|].
  repeat writes_only_step; apply IH.
Qed.

Lemma writes_only_void_minus_assign_func_loop this (func : F) n iter :
  writes_only this (void_minus_assign_func_loop n this func iter).
Proof.
  revert iter. induction n as [|n IH]; intros iter; simpl; [apply writes_only_lift|].
  repeat writes_only_step; apply IH.
Qed.

Lemma writes_only_minus_assign_inner this right n rightIter iter :
  writes_only this (minus_assign_inner (F := F) n this right rightIter iter).
Proof.
  revert rightIter iter. induction n as [|n IH]; intros rightIter iter; simpl;
    [apply writes_only_lift|].
  repeat writes_only_step; apply IH.
Qed.

Lemma writes_only_minus_assign_outer this right n rightIter :
  writes_only this (minus_assign_outer (F := F) n this right rightIter).
Proof.
  revert rightIter. induction n as [|n IH]; intros rightIter;
    [apply writes_only_lift|].
  rewrite minus_assign_outer_eq.
  repeat (first [apply writes_only_minus_assign_inner | apply IH | writes_only_step]).
Qed.

Lemma writes_only_operator_assign this b : writes_only this (operator_assign (F := F) this b).
Proof. unfold operator_assign. repeat writes_only_step. Qed.

Lemma writes_only_operator_assign_func this (func : F) :
  writes_only this (operator_assign_func this func).
Proof. unfold operator_assign_func. repeat writes_only_step. Qed.

Lemma writes_only_operator_plus_assign_func this (func : F) :
  writes_only this (operator_plus_assign_func this func).
Proof. unfold operator_plus_assign_func. repeat writes_only_step. Qed.

Lemma writes_only_operator_plus_assign this right :
  writes_only this (operator_plus_assign (F := F) this right).
Proof.
  unfold operator_plus_assign. repeat (first [apply writes_only_plus_assign_loop | writes_only_step]).
Qed.

Lemma writes_only_operator_minus_assign_func this (func : F) :
  writes_only this (operator_minus_assign_func this func).
Proof.
  unfold operator_minus_assign_func. repeat (first [apply writes_only_minus_assign_func_loop | writes_only_step]).
Qed.

Lemma writes_only_void_operator_minus_assign_func this (func : F) :
  writes_only this (void_operator_minus_assign_func this func).
Proof.
  unfold void_operator_minus_assign_func. repeat (first [apply writes_only_void_minus_assign_func_loop | writes_only_step]).
Qed.

Lemma writes_only_operator_minus_assign this right :
  writes_only this (operator_minus_assign (F := F) this right).
Proof.
  unfold operator_minus_assign. repeat (first [apply writes_only_minus_assign_outer | writes_only_step]).
Qed.

(** X1. Whatever store they run in and whatever they are given, the
    mutating members ([operator=], [operator+=], [operator-=], with a
    callable or a delegate, in both classes) that return have written
    nothing but the target sequence of [*this]: every other object,
    [right] included, is as it was, and [*this] has the lock and the policy
    it had. *)
Theorem mutating_members_write_only_this this right (func : F) :
  writes_only this (operator_assign (F := F) this right) ∧
  writes_only this (operator_assign_func this func) ∧
  writes_only this (operator_plus_assign_func this func) ∧
  writes_only this (operator_plus_assign (F := F) this right) ∧
  writes_only this (operator_minus_assign_func this func) ∧
  writes_only this (void_operator_minus_assign_func this func) ∧
  writes_only this (operator_minus_assign (F := F) this right).
Proof.
  split; [apply writes_only_operator_assign|].
  split; [apply writes_only_operator_assign_func|].
  split; [apply writes_only_operator_plus_assign_func|].
  split; [apply writes_only_operator_plus_assign|].
  split; [apply writes_only_operator_minus_assign_func|].
  split; [apply writes_only_void_operator_minus_assign_func|].
  apply writes_only_operator_minus_assign.
Qed.

(** ** The lock of a delegate follows its policy *)

Lemma locks_kept this h h' :
  only_funcList_of this h h' → store_locks_match h → store_locks_match h'.
Proof.
  intros (Ho & Ht & _) Hh a d' Hd'. destruct (decide (a = this)) as [->|Ha].
  - destruct (Ht d' Hd') as (d & Hd & Hl & Hp).
    unfold lock_matches. rewrite Hl, Hp. by apply (Hh this).
  - rewrite Ho in Hd' by done. by apply (Hh a).
Qed.

Lemma locks_after_alloc h d :
  lock_matches d → store_locks_match h → store_locks_match (<[fresh (dom h) := d]> h).
Proof.
  intros Hd Hh a d'. destruct (decide (a = fresh (dom h))) as [->|Ha].
  - rewrite lookup_insert_eq. by intros [= <-].
  - rewrite lookup_insert_ne by done. by apply Hh.
Qed.

(** X2. The lock of a delegate is made from its policy.  Each
    constructor creates the lock that the policy names (none for an
    unlisted policy); the copy constructor creates it from the copied
    policy, whatever lock the original holds, and so do the copies that
    [operator+] and [operator-] return.  In a store where every delegate
    has the lock its policy asks for, that stays so under every
    constructor and every mutating member that returns. *)
Theorem lock_follows_policy policy this right (func : F) h :
  (∀ a h', declare_empty policy h = Ok (a, h') →
     h' !! a = Some (mkDelegate [] (new_lock policy) policy)) ∧
  (∀ a h', declare_of func policy h = Ok (a, h') →
     h' !! a = Some (mkDelegate [func] (new_lock policy) policy)) ∧
  (∀ d a h', h !! this = Some d → declare_copy this h = Ok (a, h') →
     h' !! a = Some (mkDelegate (m_funcList d)
                       (new_lock (m_lockPolicy d)) (m_lockPolicy d))) ∧
  (∀ d ret h', h !! this = Some d → operator_plus_func this func h = Ok (ret, h') →
     m_lockPolicy ret = m_lockPolicy d ∧ m_lock ret = new_lock (m_lockPolicy d)) ∧
  (∀ d ret h', h !! this = Some d → operator_minus_func this func h = Ok (ret, h') →
     m_lockPolicy ret = m_lockPolicy d ∧ m_lock ret = new_lock (m_lockPolicy d)) ∧
  (∀ d ret h', h !! this = Some d → operator_plus this right h = Ok (ret, h') →
     m_lockPolicy ret = m_lockPolicy d ∧ m_lock ret = new_lock (m_lockPolicy d)) ∧
  (∀ d ret h', h !! this = Some d → operator_minus this right h = Ok (ret, h') →
     m_lockPolicy ret = m_lockPolicy d ∧ m_lock ret = new_lock (m_lockPolicy d)) ∧
  (store_locks_match h →
   (∀ a h', declare_empty policy h = Ok (a, h') → store_locks_match h') ∧
   (∀ a h', declare_of func policy h = Ok (a, h') → store_locks_match h') ∧
   (∀ a h', declare_copy this h = Ok (a, h') → store_locks_match h') ∧
   (∀ h', operator_assign this right h = Ok (tt, h') → store_locks_match h') ∧
   (∀ h', operator_assign_func this func h = Ok (tt, h') → store_locks_match h') ∧
   (∀ h', operator_plus_assign_func this func h = Ok (tt, h') → store_locks_match h') ∧
   (∀ h', operator_plus_assign this right h = Ok (tt, h') → store_locks_match h') ∧
   (∀ h', operator_minus_assign_func this func h = Ok (tt, h') → store_locks_match h') ∧
   (∀ h', void_operator_minus_assign_func this func h = Ok (tt, h') →
          store_locks_match h') ∧
   (∀ h', operator_minus_assign this right h = Ok (tt, h') → store_locks_match h')).
Proof.
  split; [intros a h' [= <- <-]; apply lookup_insert_eq|].
  split; [intros a h' [= <- <-]; apply lookup_insert_eq|].
  split.
  { intros d a h' Hd. unfold declare_copy. rewrite run_bind, (run_load _ _ _ Hd).
    intros [= <- <-]. apply lookup_insert_eq. }
  assert (Hret : ∀ (m : nat → M unit), (∀ a, writes_only a (m a)) →
            ∀ d ret h', h !! this = Some d →
            (local_copy this ≫= λ a, m a ≫= λ _, return_local a) h = Ok (ret, h') →
            m_lockPolicy ret = m_lockPolicy d ∧ m_lock ret = new_lock (m_lockPolicy d)).
  { intros m Hm d ret h' Hd. rewrite run_bind, (run_local_copy _ _ _ Hd), run_bind.
    destruct (m _ _) as [[[] h2]|] eqn:E; [|done].
    apply Hm in E as (_ & Ht & _). unfold return_local.
    rewrite run_bind. unfold load.
    destruct (h2 !! fresh (dom h)) as [d2|] eqn:E2; [|done].
    intros [= <- _]. destruct (Ht d2 eq_refl) as (d1 & Hd1 & _ & Hp).
    rewrite lookup_insert_eq in Hd1. injection Hd1 as <-.
    simpl in *. by rewrite Hp. }
  split; [apply (Hret (λ a, operator_plus_assign_func a func));
          intros a; apply writes_only_operator_plus_assign_func|].
  split; [apply (Hret (λ a, operator_minus_assign_func a func));
          intros a; apply writes_only_operator_minus_assign_func|].
  split; [apply (Hret (λ a, operator_plus_assign a right));
          intros a; apply writes_only_operator_plus_assign|].
  split; [apply (Hret (λ a, operator_minus_assign a right));
          intros a; apply writes_only_operator_minus_assign|].
  intros Hh.
  split; [intros a h' [= _ <-]; by apply locks_after_alloc|].
  split; [intros a h' [= _ <-]; by apply locks_after_alloc|].
  split.
  { intros a h'. unfold declare_copy. rewrite run_bind. unfold load.
    destruct (h !! this) as [d|]; [|done].
    intros [= _ <-]. by apply locks_after_alloc. }
  split; [intros h' E; eapply locks_kept; [by eapply writes_only_operator_assign|done]|].
  split; [intros h' E; eapply locks_kept; [by eapply writes_only_operator_assign_func|done]|].
  split; [intros h' E; eapply locks_kept;
            [by eapply writes_only_operator_plus_assign_func|done]|].
  split; [intros h' E; eapply locks_kept; [by eapply writes_only_operator_plus_assign|done]|].
  split; [intros h' E; eapply locks_kept;
            [by eapply writes_only_operator_minus_assign_func|done]|].
  split; [intros h' E; eapply locks_kept;
            [by eapply writes_only_void_operator_minus_assign_func|done]|].
  intros h' E; eapply locks_kept; [by eapply writes_only_operator_minus_assign|done].
Qed.

(** ** Assignment *)

Lemma operator_assign_func_run this (func : F) h d :
  h !! this = Some d →
  operator_assign_func this func h =
    Ok (tt, <[this := mkDelegate [func] (m_lock d) (m_lockPolicy d)]> h).
Proof.
  intros Hd. unfold operator_assign_func.
  rewrite run_bind, (run_LockObj _ _ _ Hd), run_bind, (run_set_funcList _ _ _ _ Hd).
  rewrite run_bind.
  erewrite run_funcList by apply lookup_insert_eq.
  erewrite run_set_funcList by apply lookup_insert_eq.
  by rewrite insert_insert_eq.
Qed.

(** X3. [d = func] replaces the whole target sequence of [d], whatever it
    held, by the single target [func]; invoking [d] afterwards calls [func]
    once and returns its result. *)
Theorem assign_callable_replaces_all {A R W : Type} (call : F → A → W → R * W)
    this (func : F) h d (x : A) (w : W) :
  h !! this = Some d →
  ∃ h' d',
    operator_assign_func this func h = Ok (tt, h') ∧
    h' !! this = Some d' ∧
    m_funcList d' = [func] ∧
    operator_index d' 0 = Ok func ∧
    operator_call call d' x w = Ok ((call func x w).1, ((call func x w).2, [(func, x)])).
Proof.
  intros Hd. eexists _, _.
  split; [by apply operator_assign_func_run|].
  split; [apply lookup_insert_eq|]. split; [done|]. split; [done|].
  by rewrite (operator_call_run call _ x w [] func).
Qed.

(** X4. [d = b] with another delegate [b] gives [d] the target sequence of
    [b] and leaves [b] as it was; [d] keeps its own lock and policy, those
    of [b] are not copied.  [d = d] leaves the store as it was. *)
Theorem assign_delegate_copies_targets_only this b h d r :
  h !! this = Some d →
  h !! b = Some r →
  ∃ h',
    operator_assign this b h = Ok (tt, h') ∧
    h' !! this = Some (mkDelegate (m_funcList r) (m_lock d) (m_lockPolicy d)) ∧
    (this ≠ b → h' !! b = Some r) ∧
    (this = b → h' = h).
Proof.
  intros Hd Hr. unfold operator_assign. destruct (decide (this ≠ b)) as [Hne|Heq].
  - eexists. split.
    + rewrite run_bind, (run_LockObj _ _ _ Hd), run_bind, (run_funcList _ _ _ Hr).
      by apply run_set_funcList.
    + split; [apply lookup_insert_eq|]. split; [|done].
      intros _. by rewrite lookup_insert_ne.
  - assert (this = b) as <- by (by destruct (decide (this = b))).
    exists h. split; [done|]. rewrite Hd in Hr. injection Hr as <-.
    by rewrite same_fields.
Qed.

(** ** Copies *)

(** X5. A copy has storage of its own: after [Delegate c(d);] appending
    [f] to [c] and [g] to [d] leaves [d] with its targets followed by [g]
    only and [c] with the targets [d] had at the copy followed by [f]
    only. *)
Theorem copy_has_its_own_targets this (f g : F) h d :
  h !! this = Some d →
  ∃ c h' dc dd,
    (c ← declare_copy this;
     _ ← operator_plus_assign_func c f;
     _ ← operator_plus_assign_func this g;
     mret c) h = Ok (c, h') ∧
    c ≠ this ∧
    h' !! c = Some dc ∧ m_funcList dc = m_funcList d ++ [f] ∧
    h' !! this = Some dd ∧ m_funcList dd = m_funcList d ++ [g] ∧
    m_lockPolicy dc = m_lockPolicy d ∧ m_lock dc = new_lock (m_lockPolicy d).
Proof.
  intros Hd.
  assert (Hc : fresh (dom h) ≠ this).
  { intros E. rewrite <- E, fresh_unused in Hd. discriminate. }
  exists (fresh (dom h)). eexists _, _, _. split.
  - rewrite run_bind. unfold declare_copy. rewrite run_bind, (run_load _ _ _ Hd).
    unfold alloc. rewrite run_bind.
    erewrite operator_plus_assign_func_run by apply lookup_insert_eq.
    rewrite run_bind.
    erewrite operator_plus_assign_func_run
      by (rewrite !lookup_insert_ne by done; exact Hd).
    reflexivity.
  - split; [done|]. split.
    { rewrite lookup_insert_ne by done. apply lookup_insert_eq. }
    split; [done|]. split; [apply lookup_insert_eq|]. done.
Qed.

(** ** Appending one callable *)

(** X6. [d += func] puts [func] at index [count], whether or not [d]
    holds it already: the count grows by one, the indices below [count]
    give what they gave, and the indices above it are still out of
    range. *)
Theorem append_callable_extends_by_one this (func : F) h d :
  h !! this = Some d →
  ∃ h' d',
    operator_plus_assign_func this func h = Ok (tt, h') ∧
    h' !! this = Some d' ∧
    length (m_funcList d') = S (length (m_funcList d)) ∧
    operator_index d' (length (m_funcList d)) = Ok func ∧
    (∀ i, i < length (m_funcList d) → operator_index d' i = operator_index d i) ∧
    (∀ i, length (m_funcList d) < i → operator_index d' i = Fault out_of_range).
Proof.
  intros Hd. eexists _, _.
  split; [by apply operator_plus_assign_func_run|].
  split; [apply lookup_insert_eq|]. simpl.
  split; [rewrite length_app; simpl; lia|].
  split; [|split].
  - rewrite operator_index_run. simpl. by rewrite list_lookup_middle.
  - intros i Hi. rewrite !operator_index_run. simpl.
    by rewrite lookup_app_l.
  - intros i Hi. rewrite operator_index_run. simpl.
    rewrite (proj2 (lookup_ge_None _ _)); [done|].
    rewrite length_app. simpl. lia.
Qed.

(** ** Appending and removing *)

Lemma without_app (func : F) v1 v2 :
  without func (v1 ++ v2) = without func v1 ++ without func v2.
Proof. unfold without. apply filter_app. Qed.

Lemma without_twice (func : F) v : without func (without func v) = without func v.
Proof. apply without_absent, without_gone. Qed.

Lemma without_swap (f g : F) v : without g (without f v) = without f (without g v).
Proof.
  induction v as [|x v IH]; [done|].
  destruct (decide (x = f)) as [Hf|Hf]; destruct (decide (x = g)) as [Hg|Hg].
  - subst f g. by rewrite !without_cons_eq.
  - subst f. rewrite without_cons_eq, (without_cons_ne g x) by done.
    by rewrite without_cons_eq.
  - subst g. rewrite (without_cons_ne f x) by done. by rewrite !without_cons_eq.
  - rewrite !(without_cons_ne f x), !(without_cons_ne g x) by done.
    rewrite (without_cons_ne f x) by done.
    by rewrite IH.
Qed.

(** X7. In the general class [d += f; d -= f] does not count: it leaves
    [d] with its earlier targets other than [f], the same as
    [d += f; d += f; d -= f], and it gives back the store it started from
    exactly when [f] was not among the targets before. *)
Theorem append_then_remove this (func : F) h d :
  h !! this = Some d →
  (_ ← operator_plus_assign_func this func;
   operator_minus_assign_func this func) h =
    Ok (tt, <[this := mkDelegate (without func (m_funcList d))
                        (m_lock d) (m_lockPolicy d)]> h) ∧
  (_ ← operator_plus_assign_func this func;
   _ ← operator_plus_assign_func this func;
   operator_minus_assign_func this func) h =
    Ok (tt, <[this := mkDelegate (without func (m_funcList d))
                        (m_lock d) (m_lockPolicy d)]> h) ∧
  ((_ ← operator_plus_assign_func this func;
    operator_minus_assign_func this func) h = Ok (tt, h) ↔
   func ∉ m_funcList d).
Proof.
  intros Hd.
  assert (E1 : (_ ← operator_plus_assign_func this func;
                operator_minus_assign_func this func) h =
               Ok (tt, <[this := mkDelegate (without func (m_funcList d))
                                   (m_lock d) (m_lockPolicy d)]> h)).
  { rewrite run_bind, (operator_plus_assign_func_run _ _ _ _ Hd).
    erewrite operator_minus_assign_func_run by apply lookup_insert_eq.
    simpl. rewrite insert_insert_eq, without_app, without_cons_eq. simpl.
    by rewrite app_nil_r. }
  split; [exact E1|]. split.
  - rewrite run_bind, (operator_plus_assign_func_run _ _ _ _ Hd), run_bind.
    erewrite operator_plus_assign_func_run by apply lookup_insert_eq.
    erewrite operator_minus_assign_func_run by apply lookup_insert_eq.
    simpl. rewrite !insert_insert_eq, !without_app, !without_cons_eq. simpl.
    by rewrite !app_nil_r.
  - rewrite E1. split.
    + intros [= E]. assert (E' : <[this := mkDelegate (without func (m_funcList d))
                                   (m_lock d) (m_lockPolicy d)]> h !! this = Some d)
        by (by rewrite E).
      rewrite lookup_insert_eq in E'. injection E' as E'.
      pose proof (without_gone func (m_funcList d)) as Hg.
      destruct d as [v l p]. simpl in *. by inversion E'; subst; congruence.
    + intros Hnot. rewrite without_absent by done.
      by rewrite same_fields, insert_id.
Qed.

(** X8. In the general class removing a callable a second time changes
    nothing more, and removing [f] then [g] leaves what removing [g] then
    [f] leaves. *)
Theorem remove_callable_idempotent_and_commutes this (f g : F) h d :
  h !! this = Some d →
  (_ ← operator_minus_assign_func this f; operator_minus_assign_func this f) h =
    operator_minus_assign_func this f h ∧
  (_ ← operator_minus_assign_func this f; operator_minus_assign_func this g) h =
    (_ ← operator_minus_assign_func this g; operator_minus_assign_func this f) h.
Proof.
  intros Hd. rewrite !run_bind.
  rewrite !(operator_minus_assign_func_run _ _ _ _ Hd).
  erewrite !operator_minus_assign_func_run by apply lookup_insert_eq.
  simpl. rewrite !insert_insert_eq, without_twice, (without_swap f g). done.
Qed.

(** ** Removing, combining and invoking *)

(** X9. In the general class the delegate that [d - f] returns holds the
    targets of [d] other than [f], [d] and the store being as they were,
    and no invocation of it calls [f]: an invocation that returns has
    called exactly those targets, in order. *)
Theorem subtracted_callable_is_not_called {A R W : Type} (call : F → A → W → R * W)
    this (func : F) h d (x : A) (w : W) :
  h !! this = Some d →
  ∃ d',
    operator_minus_func this func h = Ok (d', h) ∧
    m_funcList d' = without func (m_funcList d) ∧
    ∀ r w' lg,
      operator_call call d' x w = Ok (r, (w', lg)) →
      lg = calls_of (without func (m_funcList d)) x ∧ ∀ y, (func, y) ∉ lg.
Proof.
  intros Hd. eexists. split; [by apply operator_minus_func_run|].
  split; [done|]. intros r w' lg.
  destruct (decide (without func (m_funcList d) = [])) as [Hv|Hv].
  - by rewrite operator_call_empty.
  - destruct (nonempty_last _ Hv) as (fs & g & Hfs).
    rewrite (operator_call_run call _ x w fs g) by done.
    intros [= _ _ <-]. split; [done|].
    intros y. unfold calls_of. simpl. rewrite list_elem_of_fmap.
    intros (f' & [= <- _] & Hin). by apply (without_gone func (m_funcList d)).
Qed.

(** X10. The delegate that [d + f] returns can always be invoked, also
    when [d] is empty: the invocation calls the targets of [d] in order,
    then [f], and returns the result of [f] (both classes). *)
Theorem combined_delegate_invokes {A R R0 W : Type} (call : F → A → W → R * W)
    (RetType : return_type R0) (call0 : F → W → R0 * W)
    this (func : F) h d (x : A) (w : W) :
  h !! this = Some d →
  ∃ d',
    operator_plus_func this func h = Ok (d', h) ∧
    operator_call call d' x w =
      Ok ((call func x (world_after_calls call (m_funcList d) x w)).1,
          ((call func x (world_after_calls call (m_funcList d) x w)).2,
           calls_of (m_funcList d) x ++ [(func, x)])) ∧
    void_operator_call RetType call0 d' w =
      Ok ((call0 func (void_world_after_calls call0 (m_funcList d) w)).1,
          ((call0 func (void_world_after_calls call0 (m_funcList d) w)).2,
           m_funcList d ++ [func])).
Proof.
  intros Hd. eexists. split; [by apply operator_plus_func_run|]. split.
  - rewrite (operator_call_run call _ x w (m_funcList d) func) by done.
    simpl. unfold calls_of. by rewrite fmap_app.
  - by rewrite (void_operator_call_run RetType call0 _ w (m_funcList d) func).
Qed.

(** X11. In the void specialisation [d - f] has defined behaviour exactly
    when [f] is not a target of [d]: it then returns a delegate with the
    targets and the policy of [d], and the store is as it was.  When [f]
    is a target, the [operator-=] it calls uses the iterator that its
    first [erase] invalidated, and nothing is guaranteed of the call. *)
Theorem void_subtract_callable_defined_iff_absent this (func : F) h d :
  h !! this = Some d →
  (defined (void_operator_minus_func this func h) ↔ func ∉ m_funcList d) ∧
  (func ∉ m_funcList d →
     void_operator_minus_func this func h =
       Ok (mkDelegate (m_funcList d) (new_lock (m_lockPolicy d)) (m_lockPolicy d), h)) ∧
  (func ∈ m_funcList d →
     void_operator_minus_func this func h = Fault invalid_iterator).
Proof.
  intros Hd. unfold defined. rewrite (void_operator_minus_func_run _ _ _ _ Hd).
  destruct (decide (func ∈ m_funcList d)) as [Hin|Hin].
  - split; [split; [by intros [? ?]|done]|]. done.
  - split; [split; [done|by eauto]|]. done.
Qed.

(** ** Appending and removing the targets of a delegate *)

(** X13. [d -= right] has defined behaviour exactly when no target of
    [right] is a target of [d], and it then changes nothing.  With a
    common target it uses the iterator that its first [erase]
    invalidated, and nothing is guaranteed of the call.  In particular
    [d -= d] is defined only for an empty [d]. *)
Theorem remove_delegate_defined_iff_disjoint this right h d r :
  h !! this = Some d →
  h !! right = Some r →
  (defined (operator_minus_assign this right h) ↔
     ∀ g, g ∈ m_funcList r → g ∉ m_funcList d) ∧
  ((∀ g, g ∈ m_funcList r → g ∉ m_funcList d) →
     operator_minus_assign this right h = Ok (tt, h)) ∧
  ((∃ g, g ∈ m_funcList r ∧ g ∈ m_funcList d) →
     operator_minus_assign this right h = Fault invalid_iterator) ∧
  (this = right →
     (defined (operator_minus_assign this right h) ↔ m_funcList d = [])).
Proof.
  intros Hd Hr. unfold defined. rewrite (operator_minus_assign_run _ _ _ _ _ Hd Hr).
  destruct (decide (Exists (λ g, g ∈ m_funcList d) (m_funcList r))) as [Hex|Hex].
  - apply Exists_exists in Hex as (g & Hgr & Hgd).
    split; [split; [by intros [? ?]|]; intros Hall; by destruct (Hall g Hgr)|].
    split; [intros Hall; by destruct (Hall g Hgr)|].
    split; [done|]. intros ->. split; [by intros [? ?]|].
    intros Hv. rewrite Hd in Hr. injection Hr as <-.
    rewrite Hv in Hgd. by apply elem_of_nil in Hgd.
  - assert (Hall : ∀ g, g ∈ m_funcList r → g ∉ m_funcList d).
    { intros g Hgr Hgd. apply Hex, Exists_exists. eauto. }
    split; [split; [done|by eauto]|]. split; [done|]. split.
    + intros (g & Hgr & Hgd). by destruct (Hall g Hgr).
    + intros ->. rewrite Hd in Hr. injection Hr as <-.
      split; [|by eauto]. intros _.
      destruct (m_funcList d) as [|g v] eqn:Ev; [done|].
      destruct (Hall g); apply list_elem_of_here.
Qed.

(** ** Construction *)

(** X14. A delegate declared with a callable is a new object holding
    that one target: index 0 gives the callable, every other index is out
    of range, an invocation is one call of the callable, and the objects
    that were in the store are as they were.  A delegate declared without
    a callable is a new object on which every index is out of range. *)
Theorem declared_delegates {A R W : Type} (call : F → A → W → R * W)
    policy (func : F) h (x : A) (w : W) :
  (∃ a h' d',
     declare_of func policy h = Ok (a, h') ∧
     h !! a = None ∧ h' !! a = Some d' ∧
     (∀ b, b ≠ a → h' !! b = h !! b) ∧
     operator_index d' 0 = Ok func ∧
     (∀ i, 0 < i → operator_index d' i = Fault out_of_range) ∧
     operator_call call d' x w = Ok ((call func x w).1, ((call func x w).2, [(func, x)]))) ∧
  (∃ a h' d',
     declare_empty policy h = Ok (a, h') ∧
     h !! a = None ∧ h' !! a = Some d' ∧
     (∀ b, b ≠ a → h' !! b = h !! b) ∧
     (∀ i, operator_index d' i = Fault out_of_range) ∧
     operator_call call d' x w = Fault past_the_end).
Proof.
  split.
  - exists (fresh (dom h)). eexists _, _. split; [reflexivity|].
    split; [apply fresh_unused|]. split; [apply lookup_insert_eq|].
    split; [by intros b Hb; rewrite lookup_insert_ne|].
    split; [done|]. split.
    + intros i Hi. rewrite operator_index_run. simpl. by destruct i; [lia|].
    + by rewrite (operator_call_run call _ x w [] func).
  - exists (fresh (dom h)). eexists _, _. split; [reflexivity|].
    split; [apply fresh_unused|]. split; [apply lookup_insert_eq|].
    split; [by intros b Hb; rewrite lookup_insert_ne|].
    split; [|done]. intros i. by rewrite operator_index_run.
Qed.

Lemma append_each_run this (fs : list F) :
  ∀ h d,
    h !! this = Some d →
    append_each this fs h =
      Ok (tt, <[this := mkDelegate (m_funcList d ++ fs) (m_lock d) (m_lockPolicy d)]> h).
Proof.
  induction fs as [|f fs IH]; intros h d Hd; simpl.
  - rewrite run_ret, app_nil_r, same_fields. by rewrite insert_id.
  - rewrite run_bind, (operator_plus_assign_func_run _ _ _ _ Hd).
    erewrite IH by apply lookup_insert_eq. simpl.
    by rewrite insert_insert_eq, <- app_assoc.
Qed.

(** X15. A delegate declared empty, to which the callables [fs] and then
    [g] are appended one at a time, holds them in the order of the
    appends, duplicates included; invoking it calls them in that order and
    returns the result of [g], the last appended (both classes). *)
Theorem appended_callables_run_in_append_order {A R R0 W : Type}
    (call : F → A → W → R * W) (RetType : return_type R0) (call0 : F → W → R0 * W)
    policy (fs : list F) (g : F) h (x : A) (w : W) :
  ∃ a h' d',
    (a ← declare_empty policy; _ ← append_each a (fs ++ [g]); mret a) h = Ok (a, h') ∧
    h' !! a = Some d' ∧
    m_funcList d' = fs ++ [g] ∧
    operator_call call d' x w =
      Ok ((call g x (world_after_calls call fs x w)).1,
          ((call g x (world_after_calls call fs x w)).2, calls_of (fs ++ [g]) x)) ∧
    void_operator_call RetType call0 d' w =
      Ok ((call0 g (void_world_after_calls call0 fs w)).1,
          ((call0 g (void_world_after_calls call0 fs w)).2, fs ++ [g])).
Proof.
  eexists _, _, _. split.
  - rewrite run_bind. unfold declare_empty, alloc. rewrite run_bind.
    erewrite append_each_run by apply lookup_insert_eq. reflexivity.
  - split; [apply lookup_insert_eq|]. split; [done|]. split.
    + by rewrite (operator_call_run call _ x w fs g).
    + by rewrite (void_operator_call_run RetType call0 _ w fs g).
Qed.

End Proofs.

(** * The claims at concrete delegates *)

(** C1 at the delegate holding targets 1, 2, 3, called with 7. *)
Lemma C1_invoke_witness :
  m_funcList (demo_delegate [1; 2; 3]) ≠ [] ∧
  ∃ fs g,
    m_funcList (demo_delegate [1; 2; 3]) = fs ++ [g] ∧
    operator_call demo_call (demo_delegate [1; 2; 3]) 7 100 =
      Ok ((demo_call g 7 (world_after_calls demo_call fs 7 100)).1,
          ((demo_call g 7 (world_after_calls demo_call fs 7 100)).2,
           calls_of (m_funcList (demo_delegate [1; 2; 3])) 7)) ∧
    void_operator_call value_type demo_void_call (demo_delegate [1; 2; 3]) 100 =
      Ok ((demo_void_call g (void_world_after_calls demo_void_call fs 100)).1,
          ((demo_void_call g (void_world_after_calls demo_void_call fs 100)).2,
           m_funcList (demo_delegate [1; 2; 3]))).
Proof.
  split; [discriminate|].
  apply (C1_invoke_calls_all_in_order_returns_last demo_call value_type demo_void_call
           (demo_delegate [1; 2; 3]) 7 100).
  discriminate.
Defined.

(** C4 as stated fails: invoking an empty [Delegate<void,void>] is not a
    failure, it returns without having called anything. *)
Lemma C4_empty_void_void_invoke_returns :
  void_operator_call (void_type tt) demo_void_void_call (demo_delegate []) 100 =
    Ok (tt, (100, [])) ∧
  ¬ (∃ e, void_operator_call (void_type tt) demo_void_void_call (demo_delegate []) 100 =
            Fault e).
Proof. split; [reflexivity|]. intros [e He]. discriminate He. Qed.

(** C4 (amended) at the empty delegate: the general form and the
    value-returning void form fail, the void-returning one returns. *)
Lemma C4_invoke_on_empty_witness :
  operator_call demo_call (demo_delegate []) 7 100 = Fault past_the_end ∧
  void_operator_call value_type demo_void_call (demo_delegate []) 100 =
    Fault missing_return ∧
  void_operator_call (void_type tt) demo_void_void_call (demo_delegate []) 100 =
    Ok (tt, (100, [])).
Proof.
  destruct (C4_invoke_on_empty demo_call value_type demo_void_call
              (demo_delegate []) 7 100) as (Hg & _ & Hv & _).
  destruct (C4_invoke_on_empty demo_call (void_type tt) demo_void_void_call
              (demo_delegate []) 7 100) as (_ & _ & _ & _ & Hu).
  split; [apply Hg; reflexivity|].
  split; [apply Hv; split; reflexivity|].
  apply (Hu tt); reflexivity.
Defined.

(** C6 at the delegate holding 5, 6, 7: index 3 is out of range, index 1
    is in range, index 2 gives the last target. *)
Lemma C6_index_witness :
  operator_index (demo_delegate [5; 6; 7]) 3 = Fault out_of_range ∧
  (∃ f, m_funcList (demo_delegate [5; 6; 7]) !! 1 = Some f ∧
        operator_index (demo_delegate [5; 6; 7]) 1 = Ok f) ∧
  operator_index (demo_delegate [5; 6; 7]) 2 = Ok 7.
Proof.
  destruct (C6_index_in_and_out_of_range (demo_delegate [5; 6; 7]) 3) as (Hout & _ & _).
  destruct (C6_index_in_and_out_of_range (demo_delegate [5; 6; 7]) 1) as (_ & Hin & Hlast).
  split; [apply Hout; simpl; lia|].
  split; [apply Hin; simpl; lia|].
  apply (Hlast [5; 6] 7). reflexivity.
Defined.

(** C9 at the store whose object 0 holds 1, 2: removing 9 changes nothing. *)
Lemma C9_remove_absent_witness :
  demo_store [1; 2] [3] !! 0 = Some (demo_delegate [1; 2]) ∧
  m_funcList (demo_delegate [1; 2]) ≠ [] ∧
  (9 ∉ m_funcList (demo_delegate [1; 2])) ∧
  operator_minus_assign_func 0 9 (demo_store [1; 2] [3]) = Ok (tt, demo_store [1; 2] [3]) ∧
  void_operator_minus_assign_func 0 9 (demo_store [1; 2] [3]) = Ok (tt, demo_store [1; 2] [3]).
Proof.
  assert (Hd : demo_store [1; 2] [3] !! 0 = Some (demo_delegate [1; 2])) by reflexivity.
  assert (Hne : m_funcList (demo_delegate [1; 2]) ≠ []) by discriminate.
  assert (Hnot : 9 ∉ m_funcList (demo_delegate [1; 2]))
    by (apply (bool_decide_unpack (9 ∉ [1; 2])); vm_compute; exact I).
  split; [exact Hd|]. split; [exact Hne|]. split; [exact Hnot|].
  exact (C9_remove_absent_is_noop 0 9 _ _ Hd Hne Hnot).
Defined.

(** C2. With [d1] holding target 1 and [d2] holding target 2, [d1 += d2]
    does not make [d1] hold 1, 2: the loop passes the iterator itself to
    [push_back], and no target is appended; [d1 + d2] returns no delegate
    either, so there is no [d3] to index or invoke. *)
Theorem C2_append_delegate_appends_no_target :
  operator_plus_assign 0 1 (demo_store [1] [2]) = Fault not_a_target ∧
  operator_plus 0 1 (demo_store [1] [2]) = Fault not_a_target.
Proof. split; vm_compute; reflexivity. Qed.

(** C3. With [d1] holding targets 1, 2 and [d2] holding target 2,
    [d1 -= d2] does not leave [d1] holding 1: after [erase(iter)] the loop
    goes on with the iterator the erase has invalidated.  The same happens
    for [d1 -= d1]. *)
Theorem C3_remove_delegate_uses_invalidated_iterator :
  operator_minus_assign 0 1 (demo_store [1; 2] [2]) = Fault invalid_iterator ∧
  operator_minus_assign 0 0 (demo_store [1] []) = Fault invalid_iterator.
Proof. split; vm_compute; reflexivity. Qed.

(** C5. In the void specialisation, removing target 7 from a delegate
    holding 7, 7 does not leave it empty: the first [erase(iter)]
    invalidates [iter], which the loop then compares with [end()].  The
    general class, which assigns [iter=erase(iter)], leaves it empty. *)
Theorem C5_void_remove_uses_invalidated_iterator :
  void_operator_minus_assign_func 0 7 (demo_store [7; 7] []) = Fault invalid_iterator ∧
  operator_minus_assign_func 0 7 (demo_store [7; 7] []) = Ok (tt, demo_store [] []).
Proof. split; vm_compute; reflexivity. Qed.

(** C7. Callable 3 on the left of a delegate holding target 2: the free
    [operator+] returns no delegate holding 3, 2, because it appends with
    [operator+=(const Delegate &)]. *)
Theorem C7_prepend_appends_no_target :
  plus_func_delegate LOCK_POLICY_NONE 3 1 (demo_store [] [2]) = Fault not_a_target.
Proof. vm_compute; reflexivity. Qed.

(** C8. On the store whose object 0 holds 1, 2 and object 1 holds 2: the
    operators taking a callable return the new delegate and leave the
    store as it was; [operator+] and [operator-] taking a delegate return
    nothing. *)
Theorem C8_combine_subtract_with_delegate_fail :
  operator_plus_func 0 5 (demo_store [1; 2] [2]) =
    Ok (demo_delegate [1; 2; 5], demo_store [1; 2] [2]) ∧
  operator_minus_func 0 2 (demo_store [1; 2] [2]) =
    Ok (demo_delegate [1], demo_store [1; 2] [2]) ∧
  operator_plus 0 1 (demo_store [1; 2] [2]) = Fault not_a_target ∧
  operator_minus 0 1 (demo_store [1; 2] [2]) = Fault invalid_iterator.
Proof. repeat split; vm_compute; reflexivity. Qed.

(** * The further properties at concrete delegates *)

Lemma demo_store_locks_match v0 v1 : store_locks_match (demo_store v0 v1).
Proof.
  intros a d. unfold demo_store.
  rewrite lookup_insert_Some, lookup_singleton_Some.
  intros [[_ <-]|[_ [_ <-]]]; reflexivity.
Qed.

(** X1 at [d += 5] on the store whose objects hold 1 and 2. *)
Lemma mutating_members_witness :
  operator_plus_assign_func 0 5 (demo_store [1] [2]) = Ok (tt, demo_store [1; 5] [2]) ∧
  only_funcList_of 0 (demo_store [1] [2]) (demo_store [1; 5] [2]).
Proof.
  assert (E : operator_plus_assign_func 0 5 (demo_store [1] [2]) =
              Ok (tt, demo_store [1; 5] [2])) by (vm_compute; reflexivity).
  split; [exact E|].
  destruct (mutating_members_write_only_this (F := nat) 0 1 5) as (_ & _ & H & _).
  exact (H _ _ _ E).
Defined.

(** X2 at a copy of a delegate whose lock is not the one of its policy,
    and at [d = 5] on the store whose objects hold 1 and 2. *)
Lemma lock_follows_policy_witness :
  (∀ a h',
     declare_copy 0 {[ 0 := mkDelegate [1] (Some Mutex) LOCK_POLICY_NONE ]} = Ok (a, h') →
     h' !! a = Some (mkDelegate [1] (Some NoLock) LOCK_POLICY_NONE)) ∧
  store_locks_match (demo_store [1] [2]) ∧
  operator_assign_func 0 5 (demo_store [1] [2]) = Ok (tt, demo_store [5] [2]) ∧
  store_locks_match (demo_store [5] [2]).
Proof.
  assert (E : operator_assign_func 0 5 (demo_store [1] [2]) =
              Ok (tt, demo_store [5] [2])) by (vm_compute; reflexivity).
  split.
  - destruct (lock_follows_policy LOCK_POLICY_NONE 0 1 5
                {[ 0 := mkDelegate [1] (Some Mutex) LOCK_POLICY_NONE ]})
      as (_ & _ & H & _).
    intros a h'. apply (H (mkDelegate [1] (Some Mutex) LOCK_POLICY_NONE)).
    reflexivity.
  - split; [apply demo_store_locks_match|]. split; [exact E|].
    destruct (lock_follows_policy LOCK_POLICY_NONE 0 1 5 (demo_store [1] [2]))
      as (_ & _ & _ & _ & _ & _ & _ & H).
    destruct (H (demo_store_locks_match _ _)) as (_ & _ & _ & _ & H' & _).
    exact (H' _ E).
Defined.

(** X3 at [d = 9] for [d] holding 1, 2. *)
Lemma assign_callable_witness :
  demo_store [1; 2] [3] !! 0 = Some (demo_delegate [1; 2]) ∧
  ∃ h' d',
    operator_assign_func 0 9 (demo_store [1; 2] [3]) = Ok (tt, h') ∧
    h' !! 0 = Some d' ∧
    m_funcList d' = [9] ∧
    operator_index d' 0 = Ok 9 ∧
    operator_call demo_call d' 7 100 =
      Ok ((demo_call 9 7 100).1, ((demo_call 9 7 100).2, [(9, 7)])).
Proof.
  split; [reflexivity|].
  apply (assign_callable_replaces_all demo_call 0 9 _ (demo_delegate [1; 2]) 7 100).
  reflexivity.
Defined.

(** X4 at [d = b] for [d] holding 1, 2 and [b] holding 3. *)
Lemma assign_delegate_witness :
  demo_store [1; 2] [3] !! 0 = Some (demo_delegate [1; 2]) ∧
  demo_store [1; 2] [3] !! 1 = Some (demo_delegate [3]) ∧
  ∃ h',
    operator_assign 0 1 (demo_store [1; 2] [3]) = Ok (tt, h') ∧
    h' !! 0 = Some (demo_delegate [3]) ∧
    h' !! 1 = Some (demo_delegate [3]).
Proof.
  split; [reflexivity|]. split; [reflexivity|].
  destruct (assign_delegate_copies_targets_only 0 1 (demo_store [1; 2] [3])
              (demo_delegate [1; 2]) (demo_delegate [3]) eq_refl eq_refl)
    as (h' & E & H0 & H1 & _).
  exists h'. split; [exact E|]. split; [exact H0|]. apply H1. discriminate.
Defined.

(** X5 at a copy of the delegate holding 1, 2. *)
Lemma copy_witness :
  demo_store [1; 2] [3] !! 0 = Some (demo_delegate [1; 2]) ∧
  ∃ c h' dc dd,
    (c ← declare_copy 0;
     _ ← operator_plus_assign_func c 8;
     _ ← operator_plus_assign_func 0 9;
     mret c) (demo_store [1; 2] [3]) = Ok (c, h') ∧
    c ≠ 0 ∧
    h' !! c = Some dc ∧ m_funcList dc = [1; 2; 8] ∧
    h' !! 0 = Some dd ∧ m_funcList dd = [1; 2; 9].
Proof.
  split; [reflexivity|].
  destruct (copy_has_its_own_targets 0 8 9 (demo_store [1; 2] [3])
              (demo_delegate [1; 2]) eq_refl)
    as (c & h' & dc & dd & E & Hc & Hdc & Hvc & Hdd & Hvd & _).
  exists c, h', dc, dd. repeat split; assumption.
Defined.

(** X6 at [d += 9] for [d] holding 1, 2. *)
Lemma append_callable_witness :
  demo_store [1; 2] [3] !! 0 = Some (demo_delegate [1; 2]) ∧
  ∃ h' d',
    operator_plus_assign_func 0 9 (demo_store [1; 2] [3]) = Ok (tt, h') ∧
    h' !! 0 = Some d' ∧
    length (m_funcList d') = 3 ∧
    operator_index d' 2 = Ok 9 ∧
    operator_index d' 1 = operator_index (demo_delegate [1; 2]) 1 ∧
    operator_index d' 3 = Fault out_of_range.
Proof.
  split; [reflexivity|].
  destruct (append_callable_extends_by_one 0 9 (demo_store [1; 2] [3])
              (demo_delegate [1; 2]) eq_refl)
    as (h' & d' & E & Hd' & Hlen & Hnew & Hold & Hout).
  exists h', d'. split; [exact E|]. split; [exact Hd'|]. split; [exact Hlen|].
  split; [exact Hnew|]. split; [apply Hold; simpl; lia|apply Hout; simpl; lia].
Defined.

(** X7 at [d += 2; d -= 2] for [d] holding 1, 2, and at [d += 9; d -= 9]. *)
Lemma append_then_remove_witness :
  demo_store [1; 2] [3] !! 0 = Some (demo_delegate [1; 2]) ∧
  (9 ∉ m_funcList (demo_delegate [1; 2])) ∧
  (_ ← operator_plus_assign_func 0 2;
   operator_minus_assign_func 0 2) (demo_store [1; 2] [3]) =
    Ok (tt, <[0 := demo_delegate (without 2 [1; 2])]> (demo_store [1; 2] [3])) ∧
  (_ ← operator_plus_assign_func 0 9;
   operator_minus_assign_func 0 9) (demo_store [1; 2] [3]) =
    Ok (tt, demo_store [1; 2] [3]).
Proof.
  assert (Hnot : 9 ∉ m_funcList (demo_delegate [1; 2]))
    by (apply (bool_decide_unpack (9 ∉ [1; 2])); vm_compute; exact I).
  split; [reflexivity|]. split; [exact Hnot|]. split.
  - exact (proj1 (append_then_remove 0 2 (demo_store [1; 2] [3])
                    (demo_delegate [1; 2]) eq_refl)).
  - apply (append_then_remove 0 9 (demo_store [1; 2] [3]) (demo_delegate [1; 2]) eq_refl).
    exact Hnot.
Defined.

(** X8 at the removal of 1 and 2 from [d] holding 1, 2, 1, 3. *)
Lemma remove_callable_witness :
  demo_store [1; 2; 1; 3] [] !! 0 = Some (demo_delegate [1; 2; 1; 3]) ∧
  (_ ← operator_minus_assign_func 0 1;
   operator_minus_assign_func 0 1) (demo_store [1; 2; 1; 3] []) =
    operator_minus_assign_func 0 1 (demo_store [1; 2; 1; 3] []) ∧
  (_ ← operator_minus_assign_func 0 1;
   operator_minus_assign_func 0 2) (demo_store [1; 2; 1; 3] []) =
    (_ ← operator_minus_assign_func 0 2;
     operator_minus_assign_func 0 1) (demo_store [1; 2; 1; 3] []).
Proof.
  split; [reflexivity|].
  apply (remove_callable_idempotent_and_commutes 0 1 2 _ (demo_delegate [1; 2; 1; 3])).
  reflexivity.
Defined.

(** X9 at [d - 1] for [d] holding 1, 2, 1, 3. *)
Lemma subtracted_callable_witness :
  demo_store [1; 2; 1; 3] [] !! 0 = Some (demo_delegate [1; 2; 1; 3]) ∧
  ∃ d',
    operator_minus_func 0 1 (demo_store [1; 2; 1; 3] []) =
      Ok (d', demo_store [1; 2; 1; 3] []) ∧
    m_funcList d' = without 1 [1; 2; 1; 3] ∧
    ∀ r w' lg,
      operator_call demo_call d' 7 100 = Ok (r, (w', lg)) →
      lg = calls_of (without 1 [1; 2; 1; 3]) 7 ∧ ∀ y, (1, y) ∉ lg.
Proof.
  split; [reflexivity|].
  apply (subtracted_callable_is_not_called demo_call 0 1 _
           (demo_delegate [1; 2; 1; 3]) 7 100).
  reflexivity.
Defined.

(** X10 at [d + 9] for an empty [d]. *)
Lemma combined_delegate_witness :
  demo_store [] [3] !! 0 = Some (demo_delegate []) ∧
  ∃ d',
    operator_plus_func 0 9 (demo_store [] [3]) = Ok (d', demo_store [] [3]) ∧
    operator_call demo_call d' 7 100 =
      Ok ((demo_call 9 7 100).1, ((demo_call 9 7 100).2, [(9, 7)])) ∧
    void_operator_call value_type demo_void_call d' 100 =
      Ok ((demo_void_call 9 100).1, ((demo_void_call 9 100).2, [9])).
Proof.
  split; [reflexivity|].
  apply (combined_delegate_invokes demo_call value_type demo_void_call 0 9 _
           (demo_delegate []) 7 100).
  reflexivity.
Defined.

(** X11 at [d - 9] and [d - 2] for a void-argument [d] holding 1, 2. *)
Lemma void_subtract_callable_witness :
  demo_store [1; 2] [3] !! 0 = Some (demo_delegate [1; 2]) ∧
  defined (void_operator_minus_func 0 9 (demo_store [1; 2] [3])) ∧
  ¬ defined (void_operator_minus_func 0 2 (demo_store [1; 2] [3])).
Proof.
  split; [reflexivity|].
  destruct (void_subtract_callable_defined_iff_absent 0 9 (demo_store [1; 2] [3])
              (demo_delegate [1; 2]) eq_refl) as [H9 _].
  destruct (void_subtract_callable_defined_iff_absent 0 2 (demo_store [1; 2] [3])
              (demo_delegate [1; 2]) eq_refl) as [H2 _].
  split.
  - apply H9. apply (bool_decide_unpack (9 ∉ [1; 2])). vm_compute. exact I.
  - intros H. apply H2 in H. apply H.
    apply (bool_decide_unpack (2 ∈ [1; 2])). vm_compute. exact I.
Defined.

(** X13 at [d -= right] for [d] holding 1, 2 and [right] holding 2, and
    at [right -= right]. *)
Lemma remove_delegate_witness :
  demo_store [1; 2] [2] !! 0 = Some (demo_delegate [1; 2]) ∧
  demo_store [1; 2] [2] !! 1 = Some (demo_delegate [2]) ∧
  ¬ defined (operator_minus_assign 0 1 (demo_store [1; 2] [2])) ∧
  ¬ defined (operator_minus_assign 1 1 (demo_store [1; 2] [2])).
Proof.
  split; [reflexivity|]. split; [reflexivity|].
  destruct (remove_delegate_defined_iff_disjoint 0 1 (demo_store [1; 2] [2])
              (demo_delegate [1; 2]) (demo_delegate [2]) eq_refl eq_refl)
    as (Hsep & _).
  destruct (remove_delegate_defined_iff_disjoint 1 1 (demo_store [1; 2] [2])
              (demo_delegate [2]) (demo_delegate [2]) eq_refl eq_refl)
    as (_ & _ & _ & Hself).
  split.
  - intros H. apply (proj1 Hsep H 2).
    + apply (bool_decide_unpack (2 ∈ [2])). vm_compute. exact I.
    + apply (bool_decide_unpack (2 ∈ [1; 2])). vm_compute. exact I.
  - intros H. discriminate (proj1 (Hself eq_refl) H).
Defined.

(** X14 at a delegate declared with callable 9 in the store whose objects
    hold 1 and 2. *)
Lemma declared_delegates_witness :
  ∃ a h' d',
    declare_of 9 LOCK_POLICY_MUTEX (demo_store [1] [2]) = Ok (a, h') ∧
    h' !! a = Some d' ∧
    operator_index d' 0 = Ok 9 ∧
    operator_index d' 1 = Fault out_of_range ∧
    operator_call demo_call d' 7 100 =
      Ok ((demo_call 9 7 100).1, ((demo_call 9 7 100).2, [(9, 7)])).
Proof.
  destruct (declared_delegates demo_call LOCK_POLICY_MUTEX 9 (demo_store [1] [2]) 7 100)
    as [(a & h' & d' & E & _ & Hd' & _ & H0 & Hout & Hcall) _].
  exists a, h', d'. split; [exact E|]. split; [exact Hd'|]. split; [exact H0|].
  split; [apply Hout; lia|exact Hcall].
Defined.
